(** * ThoughtNet: link and tag extraction, graph construction, highlighting, dragging

    A shallow embedding of [src/types.ts] ([extractLinks], [extractTags])
    and of the graph view component ([connectionMap], the data preparation
    of the D3 effect, the highlight effect and the drag handlers), followed
    by the properties that the specification states about them.

    Modelling conventions.
    - A JavaScript string is a [string]: a sequence of 8-bit code units, so
      the texts covered are the Latin-1 ones.  On that range
      [String.prototype.toLowerCase] acts code unit by code unit, the
      line terminators that the regular expression atom [.] refuses are
      LF and CR, and [\w] is [[A-Za-z0-9_]].
    - A JavaScript number is a binary64 [float].  [Math.sqrt] is the
      IEEE 754 square root; [Math.cos] and [Math.sin] have the values that
      ECMA-262 fixes (at zeros, infinities and NaN) and are otherwise left
      to the engine, which every definition that reaches them takes as an
      argument.
    - Of the layout library (d3-force) the initialisation of the node
      array by [d3.forceSimulation(nodes)] is modelled, as the library
      has it; its timer, forces and ticks are not.
    - A [Map<string, V>] is a [gmap string V], a [Set<string>] is a
      [gset string]; only [get], [has], [set] and [add] are used by the
      code, so insertion order is not observable.
    - A global regular expression object is modelled by the text that
      remains after its [lastIndex]. *)

From Stdlib Require Import Floats.PrimFloat Ascii.
From Stdlib Require Uint63.
From stdpp Require Import gmap strings list.
From Equations Require Import Equations.

Set Warnings "-clear-no-such-hyp".

(** * Part I: the program *)

(** ** Strings *)

Module Str.

(** [all p s]: every code unit of [s] satisfies [p]. *)
Fixpoint all (p : ascii → bool) (s : string) : bool :=
  match s with
  | "" => true
  | String c s' => p c && all p s'
  end.

Fixpoint takeWhile (p : ascii → bool) (s : string) : string :=
  match s with
  | "" => ""
  | String c s' => if p c then String c (takeWhile p s') else ""
  end.

Fixpoint dropWhile (p : ascii → bool) (s : string) : string :=
  match s with
  | "" => ""
  | String c s' => if p c then dropWhile p s' else s
  end.

(** [stripPrefix p s]: the rest of [s] after the literal text [p], when
    [s] starts with it. *)
Fixpoint stripPrefix (p s : string) : option string :=
  match p, s with
  | "", _ => Some s
  | String a p', String b s' => if Ascii.eqb a b then stripPrefix p' s' else None
  | String _ _, "" => None
  end.

(** [String.prototype.toLowerCase] on Latin-1 code units: [A-Z] and the
    accented capitals U+00C0..U+00DE (without the multiplication sign
    U+00D7) move up by 32, everything else is kept. *)
Definition lowerChar (c : ascii) : ascii :=
  let n := nat_of_ascii c in
  if (65 <=? n) && (n <=? 90) then ascii_of_nat (n + 32)
  else if (192 <=? n) && (n <=? 222) && negb (n =? 215) then ascii_of_nat (n + 32)
  else c.

Fixpoint toLowerCase (s : string) : string :=
  match s with
  | "" => ""
  | String c s' => String (lowerChar c) (toLowerCase s')
  end.

End Str.

(** ** Regular expressions of [src/types.ts] *)

Module Regex.

(** The atom [.] (no [s] flag) matches any code unit except a line
    terminator. *)
Definition isLineTerminator (c : ascii) : bool :=
  Ascii.eqb c "010" || Ascii.eqb c "013".

(** The class [\w]. *)
Definition isWordChar (c : ascii) : bool :=
  let n := nat_of_ascii c in
  ((48 <=? n) && (n <=? 57)) || ((65 <=? n) && (n <=? 90))
  || ((97 <=? n) && (n <=? 122)) || (n =? 95).

(** A successful match: the text of capture group 1 and the input that
    follows the match (the input from the new [lastIndex] on). *)
Definition result : Type := string * string.

(** [(.*?)\]\]] : the lazy star first tries to close; failing that it
    consumes one more code unit, which must not be a line terminator. *)
Fixpoint lazyUntilClose (s : string) : option result :=
  match Str.stripPrefix "]]" s with
  | Some rest => Some ("", rest)
  | None =>
      match s with
      | "" => None
      | String c s' =>
          if isLineTerminator c then None
          else match lazyUntilClose s' with
               | Some (cap, rest) => Some (String c cap, rest)
               | None => None
               end
      end
  end.

(** [/\[\[(.*?)\]\]/] anchored at the head of [s]. *)
Definition matchLinkAt (s : string) : option result :=
  match Str.stripPrefix "[[" s with
  | Some s' => lazyUntilClose s'
  | None => None
  end.

(** [\w+] is greedy and nothing follows it in the pattern: it takes the
    longest run of word characters. *)
Fixpoint wordRun (s : string) : string * string :=
  match s with
  | String c s' =>
      if isWordChar c
      then let '(w, rest) := wordRun s' in (String c w, rest)
      else ("", s)
  | "" => ("", "")
  end.

(** [/#(\w+)/] anchored at the head of [s]. *)
Definition matchTagAt (s : string) : option result :=
  match Str.stripPrefix "#" s with
  | Some s' =>
      match wordRun s' with
      | ("", _) => None
      | (w, rest) => Some (w, rest)
      end
  | None => None
  end.

(** [regex.exec(content)] for a global regular expression: the leftmost
    position at or after [lastIndex] where the anchored pattern matches;
    [None] is JavaScript's [null]. *)
Fixpoint exec (matchAt : string → option result) (s : string) : option result :=
  match matchAt s with
  | Some r => Some r
  | None =>
      match s with
      | "" => None
      | String _ s' => exec matchAt s'
      end
  end.

Definition execLink : string → option result := exec matchLinkAt.
Definition execTag : string → option result := exec matchTagAt.

End Regex.

Import Regex.

(** ** Termination of the [exec] loops

    Every match of either pattern consumes at least one code unit. *)

Lemma append_nil_l (s : string) : "" +:+ s = s.
Proof. reflexivity. Qed.

Lemma append_cons (c : ascii) (s t : string) :
  String c s +:+ t = String c (s +:+ t).
Proof. reflexivity. Qed.

Lemma append_nil_r (s : string) : s +:+ "" = s.
Proof. induction s as [|c s IH]; [done|]. by rewrite append_cons, IH. Qed.

Lemma append_assoc (s t u : string) : (s +:+ t) +:+ u = s +:+ t +:+ u.
Proof. induction s as [|c s IH]; [done|]. by rewrite !append_cons, IH. Qed.

Lemma length_append (s t : string) :
  String.length (s +:+ t) = String.length s + String.length t.
Proof. induction s as [|c s IH]; [done|]. rewrite append_cons. simpl. lia. Qed.

Lemma stripPrefix_Some (p s r : string) :
  Str.stripPrefix p s = Some r ↔ s = p +:+ r.
Proof.
  revert s. induction p as [|a p IH]; intros s; simpl.
  - rewrite append_nil_l. split; congruence.
  - rewrite append_cons. destruct s as [|b s]; [split; congruence|].
    destruct (Ascii.eqb_spec a b) as [->|Hne].
    + rewrite IH. split; congruence.
    + split; congruence.
Qed.

Lemma stripPrefix_app (p r : string) : Str.stripPrefix p (p +:+ r) = Some r.
Proof. by apply stripPrefix_Some. Qed.

Lemma lazyUntilClose_shorter s cap rest :
  lazyUntilClose s = Some (cap, rest) → String.length rest < String.length s.
Proof.
  revert cap rest.
  induction s as [|c s IH]; intros cap rest H; [done|].
  cbn [lazyUntilClose] in H.
  destruct (Str.stripPrefix "]]" (String c s)) as [r|] eqn:Hp.
  - apply stripPrefix_Some in Hp.
    assert (rest = r) as -> by congruence.
    rewrite Hp, length_append. simpl. lia.
  - destruct (isLineTerminator c); [done|].
    destruct (lazyUntilClose s) as [[cap0 rest0]|] eqn:Hs; [|done].
    assert (rest = rest0) as -> by congruence.
    specialize (IH _ _ eq_refl). simpl. lia.
Qed.

Lemma matchLinkAt_shorter s cap rest :
  matchLinkAt s = Some (cap, rest) → String.length rest < String.length s.
Proof.
  unfold matchLinkAt. intros H.
  destruct (Str.stripPrefix "[[" s) as [s'|] eqn:Hp; [|done].
  apply stripPrefix_Some in Hp. apply lazyUntilClose_shorter in H.
  rewrite Hp, length_append. lia.
Qed.

Lemma wordRun_eq s :
  wordRun s = (Str.takeWhile isWordChar s, Str.dropWhile isWordChar s).
Proof.
  induction s as [|c s IH]; [done|]. simpl.
  destruct (isWordChar c); [|done]. by rewrite IH.
Qed.

Lemma wordRun_app s : fst (wordRun s) +:+ snd (wordRun s) = s.
Proof.
  induction s as [|c s IH]; [done|]. simpl.
  destruct (isWordChar c); [|done].
  destruct (wordRun s) as [w r]. simpl in *. by rewrite append_cons, IH.
Qed.

Lemma matchTagAt_shorter s cap rest :
  matchTagAt s = Some (cap, rest) → String.length rest < String.length s.
Proof.
  unfold matchTagAt. intros H.
  destruct (Str.stripPrefix "#" s) as [s'|] eqn:Hp; [|done].
  apply stripPrefix_Some in Hp.
  pose proof (wordRun_app s') as Happ.
  destruct (wordRun s') as [w r]. simpl in Happ.
  assert (rest = r) as -> by (destruct w; congruence).
  rewrite Hp, <- Happ, !length_append. simpl. lia.
Qed.

Lemma exec_shorter matchAt :
  (∀ s cap rest, matchAt s = Some (cap, rest) → String.length rest < String.length s) →
  ∀ s cap rest, exec matchAt s = Some (cap, rest) → String.length rest < String.length s.
Proof.
  intros Hm s. induction s as [|c s IH]; intros cap rest H; simpl in H.
  - destruct (matchAt "") as [r|] eqn:E; [|done].
    assert (r = (cap, rest)) as -> by congruence. by apply Hm in E.
  - destruct (matchAt (String c s)) as [r|] eqn:E.
    + assert (r = (cap, rest)) as -> by congruence. by apply Hm in E.
    + apply IH in H. simpl. lia.
Qed.

Lemma execLink_shorter s cap rest :
  execLink s = Some (cap, rest) → String.length rest < String.length s.
Proof. apply exec_shorter, matchLinkAt_shorter. Qed.

Lemma execTag_shorter s cap rest :
  execTag s = Some (cap, rest) → String.length rest < String.length s.
Proof. apply exec_shorter, matchTagAt_shorter. Qed.

(** ** [extractLinks] and [extractTags] ([src/types.ts])

    The [while ((match = regex.exec(content)) !== null)] loop: [rest] is the
    content from [regex.lastIndex] on, [matches] the array pushed so far. *)

Definition inspect {A : Type} (a : A) : { b : A | a = b } := exist _ a eq_refl.

Equations? linkLoop (rest : string) (matches : list string) : list string
  by wf (String.length rest) lt :=
  linkLoop rest matches with inspect (execLink rest) := {
    | exist _ (Some (m, rest')) _ => linkLoop rest' (matches ++ [m]);
    | exist _ None _ => matches }.
Proof. by eapply execLink_shorter. Qed.

Definition extractLinks (content : string) : list string := linkLoop content [].

Equations? tagLoop (rest : string) (matches : list string) : list string
  by wf (String.length rest) lt :=
  tagLoop rest matches with inspect (execTag rest) := {
    | exist _ (Some (m, rest')) _ => tagLoop rest' (matches ++ [m]);
    | exist _ None _ => matches }.
Proof. by eapply execTag_shorter. Qed.

Definition extractTags (content : string) : list string := tagLoop content [].

(** ** Data model ([src/types.ts]) *)

Module Note.
Record t : Type := mk {
  id : string;
  title : string;
  content : string;
  folder : string;
  createdAt : float;
  updatedAt : float;
  tags : list string
}.
End Note.

(** A field declared [number | null] and optional: absent, [null], or a
    number. *)
Inductive nullable : Type :=
| Undefined
| Null
| Num (v : float).

(** [GraphNode extends SimulationNodeDatum]: the declared fields, then
    [index], [vx] and [vy], which the interface inherits and the layout
    writes. *)
Module GraphNode.
Record t : Type := mk {
  id : string;
  title : string;
  group : Z;
  x : option float;
  y : option float;
  fx : nullable;
  fy : nullable;
  index : option nat;
  vx : option float;
  vy : option float
}.

Definition set_fx (v : nullable) (d : t) : t :=
  mk (id d) (title d) (group d) (x d) (y d) v (fy d) (index d) (vx d) (vy d).
Definition set_fy (v : nullable) (d : t) : t :=
  mk (id d) (title d) (group d) (x d) (y d) (fx d) v (index d) (vx d) (vy d).
Definition set_x (v : float) (d : t) : t :=
  mk (id d) (title d) (group d) (Some v) (y d) (fx d) (fy d) (index d) (vx d) (vy d).
Definition set_y (v : float) (d : t) : t :=
  mk (id d) (title d) (group d) (x d) (Some v) (fx d) (fy d) (index d) (vx d) (vy d).
Definition set_index (i : nat) (d : t) : t :=
  mk (id d) (title d) (group d) (x d) (y d) (fx d) (fy d) (Some i) (vx d) (vy d).
Definition set_velocity (v : float) (d : t) : t :=
  mk (id d) (title d) (group d) (x d) (y d) (fx d) (fy d) (index d) (Some v) (Some v).
End GraphNode.

(** The links are built with identities for endpoints; the force layout
    later replaces each identity by the node object that carries it, so
    [(d.source as GraphNode).id] reads the identity kept here. *)
Module GraphLink.
Record t : Type := mk { source : string; target : string }.

#[global] Instance eq_dec : EqDecision t.
Proof. solve_decision. Defined.
End GraphLink.

(** ** Numbers of the engine *)

Module JsMath.

(** The engine's approximations of cosine and sine. *)
Record t : Type := { approxCos : float → float; approxSin : float → float }.

Definition PI : float := 0x1.921fb54442d18p+1.

Definition sqrt (v : float) : float := PrimFloat.sqrt v.

(** [Math.cos(x)]: NaN unless [x] is finite, 1 at either zero, otherwise
    the engine's approximation. *)
Definition cos (math : t) (v : float) : float :=
  if negb (PrimFloat.is_finite v) then PrimFloat.nan
  else if PrimFloat.eqb v 0 then 1%float
  else approxCos math v.

(** [Math.sin(x)]: [x] itself when it is NaN or a zero, NaN at the
    infinities, otherwise the engine's approximation. *)
Definition sin (math : t) (v : float) : float :=
  if PrimFloat.is_nan v || PrimFloat.eqb v 0 then v
  else if PrimFloat.is_infinity v then PrimFloat.nan
  else approxSin math v.

(** The global [isNaN] on an optional number: [undefined] converts to
    NaN. *)
Definition isNaN (v : option float) : bool :=
  match v with
  | Some n => PrimFloat.is_nan n
  | None => true
  end.

(** An array index (below 2^32) as a number. *)
Definition ofIndex (i : nat) : float :=
  PrimFloat.of_uint63 (Uint63.of_Z (Z.of_nat i)).

End JsMath.

(** ** The layout library: [d3.forceSimulation(nodes)]

    The constructor of the simulation runs [initializeNodes] on the array
    it is given, in place (d3-force, [simulation.js]):
<<
    var initialRadius = 10,
        initialAngle = Math.PI * (3 - Math.sqrt(5));

    function initializeNodes() {
      for (var i = 0, n = nodes.length, node; i < n; ++i) {
        node = nodes[i], node.index = i;
        if (node.fx != null) node.x = node.fx;
        if (node.fy != null) node.y = node.fy;
        if (isNaN(node.x) || isNaN(node.y)) {
          var radius = initialRadius * Math.sqrt(0.5 + i), angle = i * initialAngle;
          node.x = radius * Math.cos(angle);
          node.y = radius * Math.sin(angle);
        }
        if (isNaN(node.vx) || isNaN(node.vy)) {
          node.vx = node.vy = 0;
        }
      }
    }
>>
*)

Module D3Force.

Definition initialRadius : float := 10.
Definition initialAngle : float :=
  PrimFloat.mul JsMath.PI (PrimFloat.sub 3 (JsMath.sqrt 5)).

(** The point that a node without a position gets at index [i]. *)
Definition phyllotaxis (math : JsMath.t) (i : nat) : float * float :=
  let radius := PrimFloat.mul initialRadius
                  (JsMath.sqrt (PrimFloat.add 0x1p-1 (JsMath.ofIndex i))) in
  let angle := PrimFloat.mul (JsMath.ofIndex i) initialAngle in
  (PrimFloat.mul radius (JsMath.cos math angle),
   PrimFloat.mul radius (JsMath.sin math angle)).

(** One round of the loop of [initializeNodes]. *)
Definition initializeNode (math : JsMath.t) (i : nat) (node : GraphNode.t)
  : GraphNode.t :=
  let node := GraphNode.set_index i node in
  let node := match GraphNode.fx node with
              | Num v => GraphNode.set_x v node
              | _ => node
              end in
  let node := match GraphNode.fy node with
              | Num v => GraphNode.set_y v node
              | _ => node
              end in
  let node := if JsMath.isNaN (GraphNode.x node) || JsMath.isNaN (GraphNode.y node)
              then GraphNode.set_y (snd (phyllotaxis math i))
                     (GraphNode.set_x (fst (phyllotaxis math i)) node)
              else node in
  if JsMath.isNaN (GraphNode.vx node) || JsMath.isNaN (GraphNode.vy node)
  then GraphNode.set_velocity 0 node
  else node.

Definition initializeNodes (math : JsMath.t) (nodes : list GraphNode.t)
  : list GraphNode.t :=
  imap (initializeNode math) nodes.

End D3Force.

(** ** The graph view component *)

Module GraphView.

(** JavaScript truthiness of a string: only the empty string is falsy. *)
Definition truthy (s : string) : bool := negb (String.eqb s "").

(** [const targetId = index.get(linkedTitle.toLowerCase()); if (targetId)]:
    the identity that a captured title resolves to, when the guard lets
    it through. *)
Definition resolveTarget (index : gmap string string) (linkedTitle : string)
  : option string :=
  match index !! Str.toLowerCase linkedTitle with
  | Some targetId => if truthy targetId then Some targetId else None
  | None => None
  end.

(** [new Map(notes.map(n => [n.title.toLowerCase(), n.id]))]: entries are
    set in array order. *)
Definition titleToId (notes : list Note.t) : gmap string string :=
  foldl (λ m n, <[Str.toLowerCase (Note.title n) := Note.id n]> m) ∅ notes.

Definition titleToIdMap (notes : list Note.t) : gmap string string :=
  foldl (λ m n, <[Str.toLowerCase (Note.title n) := Note.id n]> m) ∅ notes.

(** The body of [if (targetId) { ... }] in [connectionMap]. *)
Definition connect (sourceId targetId : string)
    (map : gmap string (gset string)) : gmap string (gset string) :=
  let map := if decide (is_Some (map !! sourceId)) then map
             else <[sourceId := ∅]> map in
  let map := if decide (is_Some (map !! targetId)) then map
             else <[targetId := ∅]> map in
  let map := alter (λ s, s ∪ {[targetId]}) sourceId map in
  alter (λ s, s ∪ {[sourceId]}) targetId map.

(** The callback of the inner [links.forEach] of [connectionMap]. *)
Definition connectTitle (index : gmap string string) (source : Note.t)
    (map : gmap string (gset string)) (linkedTitle : string)
  : gmap string (gset string) :=
  match resolveTarget index linkedTitle with
  | Some targetId => connect (Note.id source) targetId map
  | None => map
  end.

Definition connectNote (index : gmap string string) (source : Note.t)
    (map : gmap string (gset string)) : gmap string (gset string) :=
  foldl (connectTitle index source) map (extractLinks (Note.content source)).

Definition connectionMap (notes : list Note.t) : gmap string (gset string) :=
  foldl (λ map source, connectNote (titleToId notes) source map) ∅ notes.

(** [notes.map(note => ({ id, title, group }))]: fresh objects, every
    other field absent. *)
Definition nodeOf (note : Note.t) : GraphNode.t :=
  {| GraphNode.id := Note.id note;
     GraphNode.title := Note.title note;
     GraphNode.group :=
       if String.eqb (Note.folder note) "Inbox" then 1
       else if String.eqb (Note.folder note) "Projects" then 2 else 3;
     GraphNode.x := None; GraphNode.y := None;
     GraphNode.fx := Undefined; GraphNode.fy := Undefined;
     GraphNode.index := None;
     GraphNode.vx := None; GraphNode.vy := None |}.

Definition nodes (notes : list Note.t) : list GraphNode.t := nodeOf <$> notes.

(** The callback of the inner [linkedTitles.forEach] of the D3 effect. *)
Definition pushLink (index : gmap string string) (note : Note.t)
    (links : list GraphLink.t) (linkedTitle : string) : list GraphLink.t :=
  match resolveTarget index linkedTitle with
  | Some targetId =>
      links ++ [{| GraphLink.source := Note.id note;
                   GraphLink.target := targetId |}]
  | None => links
  end.

Definition pushLinks (index : gmap string string) (note : Note.t)
    (links : list GraphLink.t) : list GraphLink.t :=
  foldl (pushLink index note) links (extractLinks (Note.content note)).

Definition links (notes : list Note.t) : list GraphLink.t :=
  foldl (λ links note, pushLinks (titleToIdMap notes) note links) [] notes.

(** What the D3 effect draws, as it stands when the effect returns.  With
    an empty note set it returns before touching the drawing; otherwise it
    removes everything, builds fresh nodes and links, and hands the nodes
    to [d3.forceSimulation], which initialises them in place; the circles
    and labels are bound to these node objects.  The ticks of the
    simulation, which move the nodes afterwards, are not part of the
    effect. *)
Record drawing : Type := { drawnNodes : list GraphNode.t; drawnLinks : list GraphLink.t }.

Definition d3Effect (math : JsMath.t) (notes : list Note.t) (previous : drawing)
  : drawing :=
  match notes with
  | [] => previous
  | _ => {| drawnNodes := D3Force.initializeNodes math (nodes notes);
            drawnLinks := links notes |}
  end.

(** *** Highlight effect *)

Definition baseOpacity : float := 1.
Definition dimmedOpacity : float := 0x1.999999999999ap-4. (* 0.1 *)

Definition isConnected (connectionMap : gmap string (gset string))
    (selectedNodeId id : string) : bool :=
  if decide (id = selectedNodeId) then true
  else match connectionMap !! selectedNodeId with
       | Some neighbors => bool_decide (id ∈ neighbors)
       | None => false
       end.

Definition isDirectLink (connectionMap : gmap string (gset string))
    (selectedNodeId : string) (d : GraphLink.t) : bool :=
  let sourceId := GraphLink.source d in
  let targetId := GraphLink.target d in
  (bool_decide (sourceId = selectedNodeId) && isConnected connectionMap selectedNodeId targetId)
  || (bool_decide (targetId = selectedNodeId) && isConnected connectionMap selectedNodeId sourceId).

(** [if (!selectedNodeId)]: [null] and the empty string both reset. *)
Definition selection (selectedNodeId : option string) : option string :=
  match selectedNodeId with
  | Some s => if truthy s then Some s else None
  | None => None
  end.

Definition nodeOpacity (connectionMap : gmap string (gset string))
    (selectedNodeId : option string) (d : GraphNode.t) : float :=
  match selection selectedNodeId with
  | None => baseOpacity
  | Some s => if isConnected connectionMap s (GraphNode.id d) then 1%float else dimmedOpacity
  end.

Definition labelOpacity (connectionMap : gmap string (gset string))
    (selectedNodeId : option string) (d : GraphNode.t) : float :=
  match selection selectedNodeId with
  | None => baseOpacity
  | Some s => if isConnected connectionMap s (GraphNode.id d) then 1%float else dimmedOpacity
  end.



Definition linkOpacity (connectionMap : gmap string (gset string))
    (selectedNodeId : option string) (d : GraphLink.t) : float :=
  match selection selectedNodeId with
  | None => 0x1.3333333333333p-1 (* 0.6 *)
  | Some s => if isDirectLink connectionMap s d then 1%float else dimmedOpacity
  end.

Definition linkStroke (connectionMap : gmap string (gset string))
    (selectedNodeId : option string) (d : GraphLink.t) : string :=
  match selection selectedNodeId with
  | None => "#4b5563"
  | Some s => if isDirectLink connectionMap s d then "#7c3aed" else "#4b5563"
  end.

Definition linkStrokeWidth (connectionMap : gmap string (gset string))
    (selectedNodeId : option string) (d : GraphLink.t) : float :=
  match selection selectedNodeId with
  | None => 1.5
  | Some s => if isDirectLink connectionMap s d then 2.5%float else 1.5%float
  end.

End GraphView.

Import GraphView.

(** ** Drag behaviour *)

Module Drag.

(** What the handlers touch of the force simulation: the target of
    [alpha], and whether its timer runs. *)
Record simulation : Type := { alphaTarget : float; running : bool }.

(** A drag event: the number of other active gestures and the pointer
    position; [event.subject] is the node under the pointer, passed
    next to the simulation. *)
Record event : Type := { active : nat; x : float; y : float }.

Definition state : Type := simulation * GraphNode.t.

(** The value an assignment from the optional field [x] or [y] stores. *)
Definition ofOptional (v : option float) : nullable :=
  match v with
  | Some n => Num n
  | None => Undefined
  end.

Definition onStart (ev : event) (st : state) : state :=
  let '(sim, subject) := st in
  let sim := if (active ev =? 0)%nat
             then {| alphaTarget := 0x1.3333333333333p-2 (* 0.3 *); running := true |}
             else sim in
  let subject := GraphNode.set_fx (ofOptional (GraphNode.x subject)) subject in
  let subject := GraphNode.set_fy (ofOptional (GraphNode.y subject)) subject in
  (sim, subject).

Definition onDrag (ev : event) (st : state) : state :=
  let '(sim, subject) := st in
  let subject := GraphNode.set_fx (Num (x ev)) subject in
  let subject := GraphNode.set_fy (Num (y ev)) subject in
  (sim, subject).

Definition onEnd (ev : event) (st : state) : state :=
  let '(sim, subject) := st in
  let sim := if (active ev =? 0)%nat
             then {| alphaTarget := 0; running := running sim |}
             else sim in
  let subject := GraphNode.set_fx Null subject in
  let subject := GraphNode.set_fy Null subject in
  (sim, subject).

(** One drag interaction: [start], any number of [drag] events, [end]. *)
Definition gesture (startEv : event) (moves : list event) (endEv : event)
    (st : state) : state :=
  onEnd endEv (foldl (λ st ev, onDrag ev st) (onStart startEv st) moves).

(** The layout integrates forces for a node unless one of its overrides
    holds a number ([fx == null] covers both [null] and absent). *)
Definition overridden (d : GraphNode.t) : bool :=
  match GraphNode.fx d, GraphNode.fy d with
  | Num _, _ | _, Num _ => true
  | _, _ => false
  end.

End Drag.

(** * Part II: the notions of the specification *)

(** ** Tags

    One token per occurrence of [#] immediately followed by one or more
    word characters; the token is that run of word characters, without the
    [#].  This definition visits every position of the body and does not
    follow the regular expression's [lastIndex]. *)

Definition startsWithWord (s : string) : bool :=
  match s with
  | String c _ => isWordChar c
  | "" => false
  end.

Fixpoint tagOccurrences (s : string) : list string :=
  match s with
  | "" => []
  | String c s' =>
      if Ascii.eqb c "#" && startsWithWord s'
      then Str.takeWhile isWordChar s' :: tagOccurrences s'
      else tagOccurrences s'
  end.

(** ** Bodies with well-formed references

    A body with [n] well-formed [[[...]]] occurrences is laid out as
    [before_1 [[captured_1]] before_2 [[captured_2]] ... trailer]:
    the text before an occurrence opens no reference, the captured text
    does not close the reference early, and in the trailer no opening
    delimiter is ever closed (it has no [[[], or its [[[] is
    unterminated). *)

Record occurrence : Type := { before : string; captured : string }.

Fixpoint render (occs : list occurrence) (trailer : string) : string :=
  match occs with
  | [] => trailer
  | o :: occs' =>
      before o +:+ "[[" +:+ captured o +:+ "]]" +:+ render occs' trailer
  end.

(** [contains p s]: the literal text [p] occurs somewhere in [s]. *)
Fixpoint contains (p s : string) : bool :=
  match Str.stripPrefix p s with
  | Some _ => true
  | None =>
      match s with
      | "" => false
      | String _ s' => contains p s'
      end
  end.

(** Nothing closes what the leftmost [[[] of [s] opens. *)
Fixpoint unterminated (s : string) : bool :=
  match Str.stripPrefix "[[" s with
  | Some s' => negb (contains "]]" s')
  | None =>
      match s with
      | "" => true
      | String _ s' => unterminated s'
      end
  end.

Definition wellFormed (o : occurrence) : Prop :=
  contains "[[" (before o +:+ "[") = false ∧
  contains "]]" (captured o +:+ "]") = false.

(** The reference stays on one line: no LF or CR in the captured text. *)
Definition singleLine (o : occurrence) : Prop :=
  Str.all (λ c, negb (isLineTerminator c)) (captured o) = true.

(** The extractor's contract for a laid-out body. *)
Definition extractsAll (occs : list occurrence) (trailer : string) : Prop :=
  extractLinks (render occs trailer) = captured <$> occs.

(** ** Adjacency, links of a note, title resolution *)

(** [adjacency cm a]: the neighbours recorded for [a]; a key that was never
    set has none. *)
Definition adjacency (cm : gmap string (gset string)) (a : string) : gset string :=
  default ∅ (cm !! a).

(** The links pushed while one note is processed. *)
Definition noteLinks (index : gmap string string) (note : Note.t) : list GraphLink.t :=
  omap (λ linkedTitle,
          GraphLink.mk (Note.id note) <$> resolveTarget index linkedTitle)
       (extractLinks (Note.content note)).

Definition connectLink (map : gmap string (gset string)) (l : GraphLink.t)
  : gmap string (gset string) :=
  connect (GraphLink.source l) (GraphLink.target l) map.

Definition joins (l : GraphLink.t) (a b : string) : Prop :=
  (a = GraphLink.source l ∧ b = GraphLink.target l) ∨
  (a = GraphLink.target l ∧ b = GraphLink.source l).

(** In the specification's words: the later note in iteration order among
    those whose case-folded title is [key]. *)
Fixpoint lastWithTitle (key : string) (notes : list Note.t) : option Note.t :=
  match notes with
  | [] => None
  | n :: rest =>
      match lastWithTitle key rest with
      | Some m => Some m
      | None => if decide (Str.toLowerCase (Note.title n) = key) then Some n else None
      end
  end.

Definition edge (A B : Note.t) : GraphLink.t := GraphLink.mk (Note.id A) (Note.id B).

(** In the specification's words: one edge from [A] to [B], and each of
    the two is the only neighbour of the other. *)
Definition singleEdge (notes : list Note.t) (A B : Note.t) : Prop :=
  links notes = [edge A B]
  ∧ adjacency (connectionMap notes) (Note.id A) = {[Note.id B]}
  ∧ adjacency (connectionMap notes) (Note.id B) = {[Note.id A]}.

(** ** Rebuilds *)

(** The position that the layout last wrote into a node. *)
Definition placedAt (px py : float) (d : GraphNode.t) : GraphNode.t :=
  GraphNode.set_y py (GraphNode.set_x px d).

(** In the specification's words: a node that already existed keeps its
    last-known position across the rebuild. *)
Definition positionsPreserved (previous next : drawing) : Prop :=
  ∀ old new, old ∈ drawnNodes previous → new ∈ drawnNodes next →
    GraphNode.id new = GraphNode.id old →
    GraphNode.x new = GraphNode.x old ∧ GraphNode.y new = GraphNode.y old.

(** ** A cycle of three notes and its highlight *)

(** Three notes with distinct, non-empty identities and distinct
    case-folded titles; the body of each holds one reference, to the
    title of the next. *)
Record threeCycle (A B C : Note.t) : Prop := {
  cycle_ids :
    Note.id A ≠ Note.id B ∧ Note.id B ≠ Note.id C ∧ Note.id C ≠ Note.id A;
  cycle_truthy : Note.id A ≠ "" ∧ Note.id B ≠ "" ∧ Note.id C ≠ "";
  cycle_titles :
    Str.toLowerCase (Note.title A) ≠ Str.toLowerCase (Note.title B)
    ∧ Str.toLowerCase (Note.title B) ≠ Str.toLowerCase (Note.title C)
    ∧ Str.toLowerCase (Note.title C) ≠ Str.toLowerCase (Note.title A);
  cycle_AB : ∃ r, extractLinks (Note.content A) = [r]
                  ∧ Str.toLowerCase r = Str.toLowerCase (Note.title B);
  cycle_BC : ∃ r, extractLinks (Note.content B) = [r]
                  ∧ Str.toLowerCase r = Str.toLowerCase (Note.title C);
  cycle_CA : ∃ r, extractLinks (Note.content C) = [r]
                  ∧ Str.toLowerCase r = Str.toLowerCase (Note.title A)
}.

(** The highlighted set of a selection: the selected node and its
    neighbours. *)
Definition highlightSet (cm : gmap string (gset string)) (s : string) : gset string :=
  adjacency cm s ∪ {[s]}.

(** In the specification's words: every edge with both endpoints in the
    highlighted set is shown at full opacity. *)
Definition edgesWithinHighlightFull (notes : list Note.t) (s : string) : Prop :=
  ∀ l, l ∈ links notes →
    GraphLink.source l ∈ highlightSet (connectionMap notes) s →
    GraphLink.target l ∈ highlightSet (connectionMap notes) s →
    linkOpacity (connectionMap notes) (Some s) l = 1%float.

(** ** Sample note sets *)

Definition nopeNote : Note.t :=
  Note.mk "1" "Ideas" "See [[Nope]]" "Inbox" 0 0 [].

Definition demoOccurrences : list occurrence :=
  [ {| before := "see "; captured := "Project Alpha" |};
    {| before := ""; captured := "a]b " |};
    {| before := " and ] again "; captured := "Project Alpha" |} ].

(** A reference broken over two lines. *)
Definition brokenLine : occurrence :=
  {| before := ""; captured := String "a" (String "010" "b") |}.

Definition firstNote : Note.t := Note.mk "1" "Philosophy" "one note, one node" "Notes" 0 0 [].
Definition addedNote : Note.t := Note.mk "2" "Untitled Note" "" "Inbox" 0 0 [].

(** The drawing of [firstNote] alone, after the layout has come to rest:
    in a view of 800 x 600 the centring force holds a lone node at
    (400, 300), with no velocity left. *)
Definition settled : drawing :=
  {| drawnNodes :=
       [placedAt 400 300
          (GraphNode.set_velocity 0 (GraphNode.set_index 0 (nodeOf firstNote)))];
     drawnLinks := links [firstNote] |}.

Definition alphaNote : Note.t :=
  Note.mk "1" "Welcome" "check out the [[project alpha]]" "Inbox" 0 0 [].
Definition betaNote : Note.t :=
  Note.mk "4" "Project Alpha" "A secret project." "Projects" 0 0 [].

(** Two notes that were both left with the default title; the older one
    refers to that title. *)
Definition untitledNew : Note.t := Note.mk "8" "Untitled Note" "" "Inbox" 0 0 [].
Definition untitledOld : Note.t :=
  Note.mk "7" "Untitled Note" "todo: [[Untitled Note]]" "Inbox" 0 0 [].

Definition fanNote : Note.t :=
  Note.mk "1" "Welcome" "[[Philosophy]], again [[philosophy]] and [[PHILOSOPHY]]" "Inbox" 0 0 [].
Definition philosophyNote : Note.t :=
  Note.mk "2" "Philosophy" "one note equals one node" "Notes" 0 0 [].

Definition cycA : Note.t := Note.mk "a" "Alpha" "first, then [[Beta]]" "Inbox" 0 0 [].
Definition cycB : Note.t := Note.mk "b" "Beta" "second, then [[gamma]]" "Notes" 0 0 [].
Definition cycC : Note.t := Note.mk "c" "Gamma" "third, back to [[ALPHA]]" "Projects" 0 0 [].

(** * Part III: lemmas *)

(** ** Extraction *)

Example extractLinks_demo :
  extractLinks "Try linking to [[Philosophy]] or check out the [[Project Alpha]]."
  = ["Philosophy"; "Project Alpha"].
Proof. vm_compute. reflexivity. Qed.

Example extractTags_demo : extractTags "#welcome #start # x#a_1-b" = ["welcome"; "start"; "a_1"].
Proof. vm_compute. reflexivity. Qed.

Lemma takeWhile_all p s : Str.all p (Str.takeWhile p s) = true.
Proof.
  induction s as [|c s IH]; [done|]. simpl.
  destruct (p c) eqn:E; [|done]. simpl. by rewrite E, IH.
Qed.

Lemma takeWhile_app_stop p a c b :
  p c = false → Str.takeWhile p (a +:+ String c b) = Str.takeWhile p a.
Proof.
  intros Hc. induction a as [|x a IH]; simpl.
  - rewrite ?append_nil_l; simpl. by rewrite Hc.
  - rewrite ?append_cons; simpl. destruct (p x); [|done]. by rewrite IH.
Qed.

Lemma takeWhile_nonempty s :
  startsWithWord s = true → Str.takeWhile isWordChar s ≠ "".
Proof. destruct s as [|c s]; [done|]. simpl. by intros ->. Qed.

Lemma tagOccurrences_skip_word w r :
  Str.all isWordChar w = true → tagOccurrences (w +:+ r) = tagOccurrences r.
Proof.
  induction w as [|c w IH]; [done|]. simpl. intros [Hc Hw]%andb_true_iff.
  rewrite ?append_cons; simpl.
  destruct (Ascii.eqb_spec c "#") as [->|_]; [done|]. simpl. by apply IH.
Qed.

Lemma matchTagAt_Some s w r :
  matchTagAt s = Some (w, r) →
  ∃ s', s = String "#" s' ∧ startsWithWord s' = true
        ∧ w = Str.takeWhile isWordChar s' ∧ r = Str.dropWhile isWordChar s'.
Proof.
  unfold matchTagAt. intros H.
  destruct (Str.stripPrefix "#" s) as [s'|] eqn:Hp; [|done].
  apply stripPrefix_Some in Hp. exists s'. split; [done|].
  rewrite wordRun_eq in H.
  destruct s' as [|c s']; [done|]. simpl in *.
  destruct (isWordChar c); [|done]. split; [done|]. split; congruence.
Qed.

Lemma matchTagAt_None c s :
  matchTagAt (String c s) = None → Ascii.eqb c "#" && startsWithWord s = false.
Proof.
  unfold matchTagAt. simpl.
  destruct (Ascii.eqb_spec "#" c) as [<-|Hne].
  - simpl. rewrite wordRun_eq.
    destruct s as [|x s]; [done|]. simpl. by destruct (isWordChar x).
  - intros _. destruct (Ascii.eqb_spec c "#") as [->|_]; done.
Qed.

Lemma takeWhile_dropWhile p s : Str.takeWhile p s +:+ Str.dropWhile p s = s.
Proof.
  induction s as [|c s IH]; [done|]. simpl.
  destruct (p c); [|done]. by rewrite ?append_cons, IH.
Qed.

Lemma execTag_Some s w r :
  execTag s = Some (w, r) → tagOccurrences s = w :: tagOccurrences r.
Proof.
  unfold execTag. induction s as [|c s IH]; simpl; intros H.
  - by destruct (matchTagAt "").
  - destruct (matchTagAt (String c s)) as [[w' r']|] eqn:E.
    + assert (w' = w ∧ r' = r) as [-> ->] by (split; congruence).
      apply matchTagAt_Some in E as (s' & Hs & Hw & -> & ->).
      assert (c = "#"%char ∧ s = s') as [-> ->] by (split; congruence).
      simpl. rewrite Hw. f_equal.
      rewrite <- (takeWhile_dropWhile isWordChar s') at 1.
      apply tagOccurrences_skip_word, takeWhile_all.
    + apply matchTagAt_None in E. rewrite E. by apply IH.
Qed.

Lemma execTag_None s : execTag s = None → tagOccurrences s = [].
Proof.
  unfold execTag. induction s as [|c s IH]; simpl; intros H; [done|].
  destruct (matchTagAt (String c s)) eqn:E; [done|].
  apply matchTagAt_None in E. rewrite E. by apply IH.
Qed.

Lemma tagLoop_spec rest matches :
  tagLoop rest matches = matches ++ tagOccurrences rest.
Proof.
  funelim (tagLoop rest matches).
  - match goal with IH : tagLoop _ _ = _ ++ _ |- _ => rewrite IH end.
    match goal with E : execTag _ = Some _ |- _ => rewrite (execTag_Some _ _ _ E) end.
    by rewrite <- app_assoc.
  - match goal with E : execTag _ = None |- _ => rewrite (execTag_None _ E) end.
    by rewrite app_nil_r.
Qed.

Lemma tagOccurrences_tokens s :
  Forall (λ t, t ≠ "" ∧ Str.all isWordChar t = true) (tagOccurrences s).
Proof.
  induction s as [|c s IH]; simpl; [constructor|].
  destruct (Ascii.eqb c "#" && startsWithWord s) eqn:E; [|done].
  apply andb_true_iff in E as [_ E]. constructor; [|done].
  split; [by apply takeWhile_nonempty | apply takeWhile_all].
Qed.

Lemma tagOccurrences_hash_alone pre post :
  startsWithWord post = false →
  tagOccurrences (pre +:+ String "#" post) = tagOccurrences pre ++ tagOccurrences post.
Proof.
  intros Hpost. induction pre as [|c pre IH].
  - rewrite ?append_nil_l; simpl. by rewrite Hpost.
  - rewrite ?append_cons; simpl. rewrite IH.
    rewrite (takeWhile_app_stop isWordChar pre "#" post) by done.
    assert (startsWithWord (pre +:+ String "#" post) = startsWithWord pre) as ->.
    { destruct pre; done. }
    by destruct (Ascii.eqb c "#" && startsWithWord pre).
Qed.

(** Push appends below the leading code units. *)
Ltac str_norm := rewrite ?append_cons, ?append_nil_l in *.

Lemma linkLoop_step rest matches :
  linkLoop rest matches =
  match execLink rest with
  | Some (m, rest') => linkLoop rest' (matches ++ [m])
  | None => matches
  end.
Proof.
  funelim (linkLoop rest matches).
  - match goal with E : execLink _ = Some _ |- _ => by rewrite E end.
  - match goal with E : execLink _ = None |- _ => by rewrite E end.
Qed.

Lemma contains_tail p c s : contains p (String c s) = false → contains p s = false.
Proof.
  cbn [contains]. destruct (Str.stripPrefix p (String c s)); [done|].
  destruct s; done.
Qed.

Lemma contains_head p s :
  contains p s = false → Str.stripPrefix p s = None.
Proof. destruct s; cbn [contains]; by destruct (Str.stripPrefix p _). Qed.

(** A two-unit delimiter [aa] seen at the head of [t ++ a ++ u], with [t]
    non-empty, is already seen at the head of [t ++ a]. *)
Lemma stripPrefix_twice_app a t u :
  t ≠ "" →
  Str.stripPrefix (String a (String a "")) (t +:+ String a "") = None →
  Str.stripPrefix (String a (String a "")) (t +:+ String a u) = None.
Proof.
  intros Ht. destruct t as [|x [|y t]]; [done| |]; simpl.
  - destruct (Ascii.eqb a x); [|done]. by rewrite Ascii.eqb_refl.
  - destruct (Ascii.eqb a x); [|done]. by destruct (Ascii.eqb a y).
Qed.

Lemma lazyUntilClose_captured c rest :
  Str.all (λ x, negb (isLineTerminator x)) c = true →
  contains "]]" (c +:+ "]") = false →
  lazyUntilClose (c +:+ "]]" +:+ rest) = Some (c, rest).
Proof.
  induction c as [|x c IH]; intros Hline Hclose; [done|].
  simpl in Hline. apply andb_true_iff in Hline as [Hx Hline].
  pose proof (contains_head _ _ Hclose) as Hhead.
  apply (stripPrefix_twice_app "]" (String x c) ("]" +:+ rest)) in Hhead; [|done].
  str_norm. cbn [lazyUntilClose]. rewrite Hhead.
  apply negb_true_iff in Hx. rewrite Hx.
  rewrite IH; [done..|]. by apply contains_tail in Hclose.
Qed.

Lemma execLink_before t s r :
  contains "[[" (t +:+ "[") = false →
  lazyUntilClose s = Some r →
  execLink (t +:+ "[[" +:+ s) = Some r.
Proof.
  intros Ht Hs. unfold execLink. induction t as [|x t IH].
  - str_norm. cbn [exec]. unfold matchLinkAt. simpl. by rewrite Hs.
  - pose proof (contains_head _ _ Ht) as Hhead.
    apply (stripPrefix_twice_app "[" (String x t) ("[" +:+ s)) in Hhead; [|done].
    str_norm. cbn [exec]. unfold matchLinkAt at 1. rewrite Hhead.
    apply IH. by apply contains_tail in Ht.
Qed.

Lemma lazyUntilClose_no_close s : contains "]]" s = false → lazyUntilClose s = None.
Proof.
  induction s as [|c s IH]; intros H; [done|].
  cbn [lazyUntilClose]. rewrite (contains_head _ _ H).
  destruct (isLineTerminator c); [done|].
  rewrite IH; [done|]. by apply contains_tail in H.
Qed.

Lemma execLink_no_close s : contains "]]" s = false → execLink s = None.
Proof.
  unfold execLink. induction s as [|c s IH]; intros H; [done|].
  cbn [exec]. pose proof (contains_tail _ _ _ H) as Hs.
  assert (matchLinkAt (String c s) = None) as ->.
  { unfold matchLinkAt.
    destruct (Str.stripPrefix "[[" (String c s)) as [s'|] eqn:Hp; [|done].
    apply stripPrefix_Some in Hp.
    apply lazyUntilClose_no_close.
    destruct s as [|c2 s]; [done|].
    assert (s = s') as <- by (str_norm; congruence).
    by apply contains_tail in Hs. }
  by apply IH.
Qed.

Lemma contains_close_after_open s : contains "]]" ("[[" +:+ s) = contains "]]" s.
Proof. reflexivity. Qed.

Lemma execLink_unterminated s : unterminated s = true → execLink s = None.
Proof.
  induction s as [|c s IH]; intros H; [done|].
  cbn [unterminated] in H.
  destruct (Str.stripPrefix "[[" (String c s)) as [s'|] eqn:Hp.
  - apply negb_true_iff in H. apply stripPrefix_Some in Hp.
    apply execLink_no_close. by rewrite Hp, contains_close_after_open.
  - unfold execLink. cbn [exec]. unfold matchLinkAt at 1. rewrite Hp.
    by apply IH.
Qed.

Lemma linkLoop_render occs trailer matches :
  Forall wellFormed occs → Forall singleLine occs → unterminated trailer = true →
  linkLoop (render occs trailer) matches = matches ++ (captured <$> occs).
Proof.
  intros Hwf Hline Htr. revert matches.
  induction occs as [|o occs IH]; intros matches.
  - simpl. rewrite linkLoop_step, (execLink_unterminated _ Htr).
    by rewrite app_nil_r.
  - apply Forall_cons in Hwf as [[Hb Hc] Hwf].
    apply Forall_cons in Hline as [Ho Hline].
    cbn [render]. rewrite linkLoop_step.
    rewrite (execLink_before _ _ (captured o, render occs trailer)); [|done|].
    + rewrite IH by done. by rewrite <- app_assoc.
    + by apply lazyUntilClose_captured.
Qed.

(** ** Graph builder *)

Lemma titleToId_foldl (key : string) (notes : list Note.t) (m : gmap string string) :
  foldl (λ m n, <[Str.toLowerCase (Note.title n) := Note.id n]> m) m notes !! key
  = match lastWithTitle key notes with
    | Some n => Some (Note.id n)
    | None => m !! key
    end.
Proof.
  revert m. induction notes as [|n notes IH]; intros m; [done|].
  simpl. rewrite IH.
  destruct (lastWithTitle key notes); [done|].
  case_decide as Hk.
  - by rewrite Hk, lookup_insert_eq.
  - by rewrite lookup_insert_ne.
Qed.

Lemma titleToId_lookup (key : string) (notes : list Note.t) :
  titleToId notes !! key = Note.id <$> lastWithTitle key notes.
Proof.
  unfold titleToId. rewrite titleToId_foldl.
  by destruct (lastWithTitle key notes).
Qed.

Lemma lastWithTitle_None (key : string) (notes : list Note.t) :
  lastWithTitle key notes = None ↔
  Forall (λ n, Str.toLowerCase (Note.title n) ≠ key) notes.
Proof.
  induction notes as [|n notes IH]; simpl.
  - split; [constructor|done].
  - rewrite Forall_cons, <- IH.
    destruct (lastWithTitle key notes); [naive_solver|].
    case_decide; naive_solver.
Qed.

Lemma lastWithTitle_Some (key : string) (notes : list Note.t) (n : Note.t) :
  lastWithTitle key notes = Some n → n ∈ notes ∧ Str.toLowerCase (Note.title n) = key.
Proof.
  induction notes as [|m notes IH]; simpl; [done|].
  destruct (lastWithTitle key notes) as [n'|].
  - intros [= ->]. destruct IH as [? ?]; [done|]. split; [by right|done].
  - case_decide; [|done]. intros [= ->]. split; [by left|done].
Qed.

Lemma lastWithTitle_last (key : string) (before after : list Note.t) (n : Note.t) :
  Str.toLowerCase (Note.title n) = key →
  Forall (λ m, Str.toLowerCase (Note.title m) ≠ key) after →
  lastWithTitle key (before ++ n :: after) = Some n.
Proof.
  intros Hn Hafter. induction before as [|b before IH]; simpl.
  - apply lastWithTitle_None in Hafter. rewrite Hafter. by case_decide.
  - by rewrite IH.
Qed.

Lemma pushLinks_noteLinks index note (ls : list GraphLink.t) :
  pushLinks index note ls = ls ++ noteLinks index note.
Proof.
  unfold pushLinks, noteLinks. revert ls.
  induction (extractLinks (Note.content note)) as [|t ts IH]; intros ls; simpl.
  - by rewrite app_nil_r.
  - rewrite IH. unfold pushLink. destruct (resolveTarget index t); simpl; [|done].
    by rewrite <- app_assoc.
Qed.

Lemma links_foldl index (notes : list Note.t) (ls : list GraphLink.t) :
  foldl (λ links note, pushLinks index note links) ls notes
  = ls ++ (notes ≫= noteLinks index).
Proof.
  revert ls. induction notes as [|n notes IH]; intros ls.
  - simpl. by rewrite app_nil_r.
  - rewrite bind_cons. cbn [foldl].
    by rewrite IH, pushLinks_noteLinks, <- app_assoc.
Qed.

Lemma links_concat (notes : list Note.t) :
  links notes = notes ≫= noteLinks (titleToIdMap notes).
Proof. unfold links. by rewrite links_foldl. Qed.

Lemma connectNote_noteLinks index note (map : gmap string (gset string)) :
  connectNote index note map = foldl connectLink map (noteLinks index note).
Proof.
  unfold connectNote, noteLinks. revert map.
  induction (extractLinks (Note.content note)) as [|t ts IH]; intros map; [done|].
  simpl. rewrite IH. unfold connectTitle. by destruct (resolveTarget index t).
Qed.

Lemma connectionMap_foldl index (notes : list Note.t) (map : gmap string (gset string)) :
  foldl (λ map source, connectNote index source map) map notes
  = foldl connectLink map (notes ≫= noteLinks index).
Proof.
  revert map. induction notes as [|n notes IH]; intros map; [done|].
  rewrite bind_cons. cbn [foldl].
  by rewrite IH, foldl_app, connectNote_noteLinks.
Qed.

(** The adjacency index is built from exactly the links of the layout. *)
Lemma connectionMap_links (notes : list Note.t) :
  connectionMap notes = foldl connectLink ∅ (links notes).
Proof. unfold connectionMap. by rewrite connectionMap_foldl, links_concat. Qed.

Lemma adjacency_connect (s t a b : string) (map : gmap string (gset string)) :
  b ∈ adjacency (connect s t map) a ↔
  b ∈ adjacency map a ∨ (a = s ∧ b = t) ∨ (a = t ∧ b = s).
Proof.
  unfold adjacency, connect. rewrite !lookup_alter.
  repeat case_decide; subst;
    repeat (rewrite ?lookup_insert_eq, ?lookup_insert_ne in * by done);
    repeat match goal with
           | H : is_Some _ |- _ => destruct H as [? H]; rewrite ?H in *
           | H : ¬ is_Some (_ !! _) |- _ =>
               rewrite <- eq_None_not_Some in H; rewrite ?H in *
           end;
    simpl; set_solver.
Qed.

Lemma adjacency_foldl (ls : list GraphLink.t) (map : gmap string (gset string)) a b :
  b ∈ adjacency (foldl connectLink map ls) a ↔
  b ∈ adjacency map a ∨ ∃ l, l ∈ ls ∧ joins l a b.
Proof.
  revert map. induction ls as [|l ls IH]; intros map; simpl.
  - split; [by left|]. intros [?|(l & Hl & _)]; [done|]. by apply elem_of_nil in Hl.
  - rewrite IH. unfold connectLink. rewrite adjacency_connect. split.
    + intros [[H|H]|(l' & Hl' & H)].
      * by left.
      * right. exists l. split; [by left|]. exact H.
      * right. exists l'. split; [by right|done].
    + intros [H|(l' & Hl' & H)]; [by left; left|].
      apply elem_of_cons in Hl' as [->|Hl'].
      * left. right. exact H.
      * right. by exists l'.
Qed.

Lemma adjacency_empty a : adjacency ∅ a = ∅.
Proof. unfold adjacency. by rewrite lookup_empty. Qed.

(** Neighbours are exactly the other endpoints of the links. *)
Lemma adjacency_connectionMap (notes : list Note.t) a b :
  b ∈ adjacency (connectionMap notes) a ↔ ∃ l, l ∈ links notes ∧ joins l a b.
Proof.
  rewrite connectionMap_links, adjacency_foldl, adjacency_empty.
  split; [intros [H|H]; [set_solver|done] | by right].
Qed.

Lemma isConnected_true (cm : gmap string (gset string)) (s i : string) :
  isConnected cm s i = true ↔ i = s ∨ i ∈ adjacency cm s.
Proof.
  unfold isConnected, adjacency. case_decide as Hi; [by split; [left|]|].
  destruct (cm !! s) as [neighbors|]; simpl.
  - rewrite bool_decide_eq_true. naive_solver.
  - split; [done|]. intros [?|H]; [done|]. by apply not_elem_of_empty in H.
Qed.

Lemma truthy_true (s : string) : truthy s = true ↔ s ≠ "".
Proof.
  unfold truthy. rewrite negb_true_iff. apply String.eqb_neq.
Qed.

Lemma resolveTarget_Some (index : gmap string string) (linkedTitle targetId : string) :
  resolveTarget index linkedTitle = Some targetId ↔
  index !! Str.toLowerCase linkedTitle = Some targetId ∧ targetId ≠ "".
Proof.
  unfold resolveTarget.
  destruct (index !! Str.toLowerCase linkedTitle) as [t|]; [|naive_solver].
  destruct (truthy t) eqn:E.
  - apply truthy_true in E. naive_solver.
  - assert (¬ t ≠ "") by (rewrite <- truthy_true; congruence). naive_solver.
Qed.

Lemma resolveTarget_note (notes : list Note.t) (linkedTitle targetId : string) :
  resolveTarget (titleToIdMap notes) linkedTitle = Some targetId →
  ∃ n, n ∈ notes ∧ Note.id n = targetId
       ∧ Str.toLowerCase (Note.title n) = Str.toLowerCase linkedTitle.
Proof.
  intros [H _]%resolveTarget_Some.
  change (titleToIdMap notes) with (titleToId notes) in H.
  rewrite titleToId_lookup in H.
  destruct (lastWithTitle _ notes) as [n|] eqn:E; [|done].
  apply lastWithTitle_Some in E as [? ?]. exists n. naive_solver.
Qed.

Lemma elem_of_links (notes : list Note.t) (l : GraphLink.t) :
  l ∈ links notes ↔
  ∃ note linkedTitle, note ∈ notes ∧ linkedTitle ∈ extractLinks (Note.content note)
    ∧ GraphLink.source l = Note.id note
    ∧ resolveTarget (titleToIdMap notes) linkedTitle = Some (GraphLink.target l).
Proof.
  rewrite links_concat, list_elem_of_bind. split.
  - intros (note & Hl & Hnote).
    unfold noteLinks in Hl. apply list_elem_of_omap in Hl as (t & Ht & Hr).
    destruct (resolveTarget _ t) as [tid|] eqn:E; [|done].
    simpl in Hr. exists note, t. destruct l. naive_solver.
  - intros (note & t & Hnote & Ht & Hs & Hr).
    exists note. split; [|done].
    unfold noteLinks. apply list_elem_of_omap. exists t. split; [done|].
    rewrite Hr. simpl. destruct l. simpl in *. by subst.
Qed.

Lemma resolveTarget_dangling (notes : list Note.t) (linkedTitle : string) :
  Forall (λ n, Str.toLowerCase (Note.title n) ≠ Str.toLowerCase linkedTitle) notes →
  resolveTarget (titleToId notes) linkedTitle = None.
Proof.
  intros H. unfold resolveTarget. rewrite titleToId_lookup.
  apply lastWithTitle_None in H. by rewrite H.
Qed.

Lemma nodes_ids (notes : list Note.t) :
  GraphNode.id <$> nodes notes = Note.id <$> notes.
Proof. unfold nodes. rewrite <- list_fmap_compose. by apply list_fmap_ext. Qed.

Lemma adjacency_of_links (notes : list Note.t) (ls : list GraphLink.t) a b :
  links notes = ls →
  b ∈ adjacency (connectionMap notes) a ↔ ∃ l, l ∈ ls ∧ joins l a b.
Proof. intros <-. apply adjacency_connectionMap. Qed.

Lemma resolveTarget_last (before after : list Note.t) (n : Note.t) (r : string) :
  Str.toLowerCase r = Str.toLowerCase (Note.title n) →
  Forall (λ m, Str.toLowerCase (Note.title m) ≠ Str.toLowerCase (Note.title n)) after →
  Note.id n ≠ "" →
  resolveTarget (titleToIdMap (before ++ n :: after)) r = Some (Note.id n).
Proof.
  intros Hr Hafter Hid. apply resolveTarget_Some. split; [|done].
  change (titleToIdMap ?l) with (titleToId l).
  by rewrite Hr, titleToId_lookup, (lastWithTitle_last _ before after n).
Qed.

Lemma noteLinks_same_target (index : gmap string string) (n : Note.t) (targetId : string) :
  Forall (λ r, resolveTarget index r = Some targetId) (extractLinks (Note.content n)) →
  noteLinks index n
  = replicate (length (extractLinks (Note.content n))) (GraphLink.mk (Note.id n) targetId).
Proof.
  unfold noteLinks.
  induction (extractLinks (Note.content n)) as [|r rs IH]; intros H; [done|].
  apply Forall_cons in H as [Hr Hrs]. specialize (IH Hrs).
  simpl. rewrite Hr. simpl. f_equal. exact IH.
Qed.

Lemma filter_absent (l : list string) (a : string) :
  a ∉ l → filter (λ b, b = a) l = [].
Proof.
  induction l as [|b l IH]; intros Ha; [done|].
  apply not_elem_of_cons in Ha as [Hab Ha].
  rewrite filter_cons_False by congruence. by apply IH.
Qed.

Lemma filter_NoDup_once (l : list string) (a : string) :
  NoDup l → a ∈ l → length (filter (λ b, b = a) l) = 1.
Proof.
  induction 1 as [|b l Hb Hl IH]; intros Ha; [by apply elem_of_nil in Ha|].
  destruct (decide (b = a)) as [->|Hba].
  - rewrite filter_cons_True by done. by rewrite filter_absent.
  - rewrite filter_cons_False by done.
    apply elem_of_cons in Ha as [->|Ha]; [done|]. by apply IH.
Qed.

(** ** Highlight *)

Lemma truthy_selection (s : string) : s ≠ "" → selection (Some s) = Some s.
Proof. intros H%truthy_true. unfold selection. by rewrite H. Qed.

(** For a link of the graph, the highlight test holds exactly when the
    link touches the selected node: its other end is then a neighbour. *)
Lemma isDirectLink_incident (notes : list Note.t) (s : string) (l : GraphLink.t) :
  l ∈ links notes →
  isDirectLink (connectionMap notes) s l
  = bool_decide (GraphLink.source l = s ∨ GraphLink.target l = s).
Proof.
  intros Hl. unfold isDirectLink. cbv zeta.
  assert (Hst : GraphLink.source l = s →
                isConnected (connectionMap notes) s (GraphLink.target l) = true).
  { intros <-. apply isConnected_true. right. apply adjacency_connectionMap.
    exists l. split; [done|]. by left. }
  assert (Hts : GraphLink.target l = s →
                isConnected (connectionMap notes) s (GraphLink.source l) = true).
  { intros <-. apply isConnected_true. right. apply adjacency_connectionMap.
    exists l. split; [done|]. by right. }
  destruct (decide (GraphLink.source l = s)) as [Hs|Hs];
    destruct (decide (GraphLink.target l = s)) as [Ht|Ht].
  - rewrite (bool_decide_eq_true_2 _ Hs), (Hst Hs). simpl.
    symmetry. apply bool_decide_eq_true_2. by left.
  - rewrite (bool_decide_eq_true_2 _ Hs), (Hst Hs). simpl.
    symmetry. apply bool_decide_eq_true_2. by left.
  - rewrite (bool_decide_eq_false_2 _ Hs), (bool_decide_eq_true_2 _ Ht), (Hts Ht).
    simpl. symmetry. apply bool_decide_eq_true_2. by right.
  - rewrite (bool_decide_eq_false_2 _ Hs), (bool_decide_eq_false_2 _ Ht). simpl.
    symmetry. apply bool_decide_eq_false_2. tauto.
Qed.

Lemma dimmed_is_not_full : dimmedOpacity ≠ 1%float.
Proof.
  intros H. apply (f_equal (PrimFloat.eqb 1)) in H. vm_compute in H. discriminate H.
Qed.

(** A captured title resolves to the one note that carries it, wherever
    that note stands in the list, when no two notes share a case-folded
    title. *)
Lemma resolveTarget_unique (notes : list Note.t) (n : Note.t) (r : string) :
  NoDup ((λ m, Str.toLowerCase (Note.title m)) <$> notes) →
  n ∈ notes → Note.id n ≠ "" →
  Str.toLowerCase r = Str.toLowerCase (Note.title n) →
  resolveTarget (titleToIdMap notes) r = Some (Note.id n).
Proof.
  intros Hnd Hn Hid Hr.
  apply list_elem_of_split in Hn as (before & after & ->).
  apply resolveTarget_last; [done| |done].
  rewrite fmap_app, fmap_cons in Hnd.
  apply NoDup_app in Hnd as (_ & _ & Hnd). apply NoDup_cons in Hnd as [Hnotin _].
  apply Forall_forall. intros m Hm Heq. apply Hnotin.
  rewrite <- Heq. apply list_elem_of_fmap. by exists m.
Qed.

Lemma threeCycle_notes (A B C : Note.t) (notes : list Note.t) (n : Note.t) :
  notes ≡ₚ [A; B; C] → n ∈ notes ↔ n = A ∨ n = B ∨ n = C.
Proof. intros ->. set_solver. Qed.

Lemma threeCycle_titles (A B C : Note.t) (notes : list Note.t) :
  threeCycle A B C → notes ≡ₚ [A; B; C] →
  NoDup ((λ m, Str.toLowerCase (Note.title m)) <$> notes).
Proof.
  intros [_ _ (Tab & Tbc & Tca) _ _ _] ->. simpl.
  repeat constructor; set_solver.
Qed.

(** The links that each note of the cycle contributes, in whatever order
    the three notes are listed. *)
Lemma threeCycle_noteLinks (A B C : Note.t) (notes : list Note.t) :
  threeCycle A B C → notes ≡ₚ [A; B; C] →
  noteLinks (titleToIdMap notes) A = [edge A B]
  ∧ noteLinks (titleToIdMap notes) B = [edge B C]
  ∧ noteLinks (titleToIdMap notes) C = [edge C A].
Proof.
  intros Hcyc Hperm. pose proof (threeCycle_titles _ _ _ _ Hcyc Hperm) as Hnd.
  destruct Hcyc as [_ (Ha & Hb & Hc) _ (rA & HA & HrA) (rB & HB & HrB) (rC & HC & HrC)].
  assert (HinA : A ∈ notes) by (apply (threeCycle_notes A B C notes A Hperm); tauto).
  assert (HinB : B ∈ notes) by (apply (threeCycle_notes A B C notes B Hperm); tauto).
  assert (HinC : C ∈ notes) by (apply (threeCycle_notes A B C notes C Hperm); tauto).
  unfold noteLinks. rewrite HA, HB, HC. simpl.
  rewrite (resolveTarget_unique notes B rA), (resolveTarget_unique notes C rB),
    (resolveTarget_unique notes A rC); done.
Qed.

Lemma bind_sources (f : Note.t → list GraphLink.t) (notes : list Note.t) :
  Forall (λ n, GraphLink.source <$> f n = [Note.id n]) notes →
  GraphLink.source <$> (notes ≫= f) = Note.id <$> notes.
Proof.
  induction 1 as [|n ns Hn _ IH]; [done|].
  rewrite bind_cons, fmap_app, Hn, IH. done.
Qed.

Lemma threeCycle_links (A B C : Note.t) (notes : list Note.t) :
  threeCycle A B C → notes ≡ₚ [A; B; C] →
  links notes ≡ₚ [edge A B; edge B C; edge C A]
  ∧ GraphLink.source <$> links notes = Note.id <$> notes.
Proof.
  intros Hcyc Hperm.
  destruct (threeCycle_noteLinks _ _ _ _ Hcyc Hperm) as (HA & HB & HC).
  rewrite links_concat. split.
  - rewrite (bind_Permutation (noteLinks (titleToIdMap notes)) _ _ Hperm).
    rewrite !bind_cons, HA, HB, HC. done.
  - assert (Hall : Forall (λ n, GraphLink.source <$> noteLinks (titleToIdMap notes) n
                                = [Note.id n]) notes).
    { apply Forall_forall. intros n Hn.
      destruct (proj1 (threeCycle_notes A B C notes n Hperm) Hn) as [-> | [-> | ->]].
      - by rewrite HA.
      - by rewrite HB.
      - by rewrite HC. }
    by apply bind_sources.
Qed.

Lemma threeCycle_link (A B C : Note.t) (notes : list Note.t) (l : GraphLink.t) :
  threeCycle A B C → notes ≡ₚ [A; B; C] →
  l ∈ links notes ↔ l = edge A B ∨ l = edge B C ∨ l = edge C A.
Proof.
  intros Hcyc Hperm. destruct (threeCycle_links _ _ _ _ Hcyc Hperm) as [Hlinks _].
  rewrite Hlinks. set_solver.
Qed.

Lemma threeCycle_adjacency (A B C : Note.t) (notes : list Note.t) :
  threeCycle A B C → notes ≡ₚ [A; B; C] →
  adjacency (connectionMap notes) (Note.id A) = {[Note.id B; Note.id C]}
  ∧ adjacency (connectionMap notes) (Note.id B) = {[Note.id A; Note.id C]}
  ∧ adjacency (connectionMap notes) (Note.id C) = {[Note.id A; Note.id B]}.
Proof.
  intros Hcyc Hperm.
  pose proof (λ l, threeCycle_link A B C notes l Hcyc Hperm) as Hlink.
  destruct Hcyc as [(Hab & Hbc & Hca) _ _ _ _ _].
  repeat split; apply set_eq; intros x;
    rewrite adjacency_connectionMap; unfold joins;
    (split;
     [ intros (l & Hl & H); apply Hlink in Hl; unfold edge in Hl;
       set_unfold; destruct Hl as [-> | [-> | ->]]; simpl in *; naive_solver
     | intros H; set_unfold; destruct H as [-> | ->];
       [ first [ exists (edge A B); split; [apply Hlink; tauto|]; simpl; tauto
               | exists (edge B C); split; [apply Hlink; tauto|]; simpl; tauto
               | exists (edge C A); split; [apply Hlink; tauto|]; simpl; tauto ]
       | first [ exists (edge A B); split; [apply Hlink; tauto|]; simpl; tauto
               | exists (edge B C); split; [apply Hlink; tauto|]; simpl; tauto
               | exists (edge C A); split; [apply Hlink; tauto|]; simpl; tauto ] ] ]).
Qed.

Lemma threeCycle_connected (A B C : Note.t) (notes : list Note.t) (s i : string) :
  threeCycle A B C → notes ≡ₚ [A; B; C] →
  s ∈ [Note.id A; Note.id B; Note.id C] → i ∈ [Note.id A; Note.id B; Note.id C] →
  isConnected (connectionMap notes) s i = true.
Proof.
  intros Hcyc Hperm Hs Hi. apply isConnected_true.
  destruct (threeCycle_adjacency _ _ _ _ Hcyc Hperm) as (HA & HB & HC).
  set_unfold in Hs. set_unfold in Hi.
  destruct Hs as [-> | [-> | [-> | []]]]; rewrite ?HA, ?HB, ?HC; set_solver.
Qed.

Lemma cyc_threeCycle : threeCycle cycA cycB cycC.
Proof.
  constructor.
  - repeat split; discriminate.
  - repeat split; discriminate.
  - repeat split; vm_compute; discriminate.
  - exists "Beta". split; vm_compute; reflexivity.
  - exists "gamma". split; vm_compute; reflexivity.
  - exists "ALPHA". split; vm_compute; reflexivity.
Defined.

(** The three notes of the sample cycle, listed against the direction of
    their references. *)
Lemma cyc_reversed : [cycC; cycB; cycA] ≡ₚ [cycA; cycB; cycC].
Proof.
  apply perm_trans with [cycB; cycC; cycA]; [apply perm_swap|].
  apply perm_trans with [cycB; cycA; cycC]; [apply perm_skip, perm_swap|].
  apply perm_swap.
Defined.

(** * Part IV: the properties of the specification *)

(** C1, as the code has it.  For a cycle of three notes, listed in any
    order, the builder produces the three links A->B, B->C, C->A, one per
    note in the order of the notes, and each node has exactly the other
    two as neighbours.  With any one of the three selected, all three
    nodes are at full opacity, and a link is at full opacity exactly when
    it touches the selected node: the two links at the selected node are
    undimmed, the link between the two other nodes is drawn at the dimmed
    opacity, which is not the full one. *)
Theorem three_cycle_highlight (A B C : Note.t) (notes : list Note.t) :
  threeCycle A B C → notes ≡ₚ [A; B; C] →
  links notes ≡ₚ [edge A B; edge B C; edge C A]
  ∧ GraphLink.source <$> links notes = Note.id <$> notes
  ∧ length (links notes) = 3
  ∧ adjacency (connectionMap notes) (Note.id A) = {[Note.id B; Note.id C]}
  ∧ adjacency (connectionMap notes) (Note.id B) = {[Note.id A; Note.id C]}
  ∧ adjacency (connectionMap notes) (Note.id C) = {[Note.id A; Note.id B]}
  ∧ (∀ s, s ∈ [Note.id A; Note.id B; Note.id C] →
       Forall (λ d, nodeOpacity (connectionMap notes) (Some s) d = 1%float)
              (nodes notes)
       ∧ ∀ l, l ∈ links notes →
           linkOpacity (connectionMap notes) (Some s) l
           = if bool_decide (GraphLink.source l = s ∨ GraphLink.target l = s)
             then 1%float else dimmedOpacity)
  ∧ linkOpacity (connectionMap notes) (Some (Note.id A)) (edge B C) = dimmedOpacity
  ∧ linkOpacity (connectionMap notes) (Some (Note.id B)) (edge C A) = dimmedOpacity
  ∧ linkOpacity (connectionMap notes) (Some (Note.id C)) (edge A B) = dimmedOpacity
  ∧ dimmedOpacity ≠ 1%float.
Proof.
  intros Hcyc Hperm.
  destruct (threeCycle_links _ _ _ _ Hcyc Hperm) as [Hlinks Hsources].
  pose proof (λ l, threeCycle_link A B C notes l Hcyc Hperm) as Hmem.
  destruct (threeCycle_adjacency _ _ _ _ Hcyc Hperm) as (HA & HB & HC).
  assert (Hsel : ∀ s, s ∈ [Note.id A; Note.id B; Note.id C] → selection (Some s) = Some s).
  { intros s Hs. apply truthy_selection.
    destruct Hcyc as [_ (Ha & Hb & Hc) _ _ _ _].
    set_unfold in Hs. naive_solver. }
  assert (Hlink : ∀ s l, s ∈ [Note.id A; Note.id B; Note.id C] → l ∈ links notes →
            linkOpacity (connectionMap notes) (Some s) l
            = if bool_decide (GraphLink.source l = s ∨ GraphLink.target l = s)
              then 1%float else dimmedOpacity).
  { intros s l Hs Hl. unfold linkOpacity.
    by rewrite (Hsel s Hs), (isDirectLink_incident _ _ _ Hl). }
  assert (Hfar : ∀ s X Y, s ∈ [Note.id A; Note.id B; Note.id C] →
            edge X Y ∈ links notes → Note.id X ≠ s → Note.id Y ≠ s →
            linkOpacity (connectionMap notes) (Some s) (edge X Y) = dimmedOpacity).
  { intros s X Y Hs Hl HX HY. rewrite (Hlink s _ Hs Hl).
    rewrite bool_decide_eq_false_2; [done|]. simpl. tauto. }
  pose proof Hcyc as [(Hab & Hbc & Hca) _ _ _ _ _].
  split; [done|]. split; [done|].
  split; [by rewrite Hlinks|].
  split; [done|]. split; [done|]. split; [done|].
  split; [|split; [|split; [|split]]].
  - intros s Hs. split.
    + unfold nodes. apply Forall_fmap, Forall_forall. intros n Hn. simpl.
      unfold nodeOpacity. rewrite (Hsel s Hs). simpl.
      rewrite (threeCycle_connected A B C); [done..|].
      apply (threeCycle_notes A B C notes n Hperm) in Hn.
      set_unfold. naive_solver.
    + intros l Hl. by apply Hlink.
  - apply Hfar; [set_solver|apply Hmem; tauto|congruence..].
  - apply Hfar; [set_solver|apply Hmem; tauto|congruence..].
  - apply Hfar; [set_solver|apply Hmem; tauto|congruence..].
  - apply dimmed_is_not_full.
Qed.

Lemma three_cycle_highlight_witness :
  links [cycC; cycB; cycA]
    ≡ₚ [GraphLink.mk "a" "b"; GraphLink.mk "b" "c"; GraphLink.mk "c" "a"]
  ∧ GraphLink.source <$> links [cycC; cycB; cycA] = ["c"; "b"; "a"]
  ∧ adjacency (connectionMap [cycC; cycB; cycA]) "a" = {["b"; "c"]}
  ∧ linkOpacity (connectionMap [cycC; cycB; cycA]) (Some "a") (GraphLink.mk "b" "c")
    = dimmedOpacity.
Proof.
  destruct (three_cycle_highlight cycA cycB cycC [cycC; cycB; cycA]
              cyc_threeCycle cyc_reversed)
    as (Hlinks & Hsources & _ & HA & _ & _ & _ & Hfar & _).
  split; [exact Hlinks|]. split; [exact Hsources|]. split; [exact HA | exact Hfar].
Defined.

(** C1, as stated, fails: with [a] selected in the cycle a -> b -> c -> a,
    the highlighted set is all three nodes and the link from [b] to [c]
    has both ends in it, but it is drawn at the dimmed opacity. *)
Lemma three_cycle_far_edge_dimmed :
  highlightSet (connectionMap [cycA; cycB; cycC]) "a" = {["a"; "b"; "c"]}
  ∧ GraphLink.mk "b" "c" ∈ links [cycA; cycB; cycC]
  ∧ linkOpacity (connectionMap [cycA; cycB; cycC]) (Some "a") (GraphLink.mk "b" "c")
    = dimmedOpacity
  ∧ ¬ edgesWithinHighlightFull [cycA; cycB; cycC] "a".
Proof.
  assert (Hset : highlightSet (connectionMap [cycA; cycB; cycC]) "a" = {["a"; "b"; "c"]}).
  { unfold highlightSet.
    destruct (threeCycle_adjacency _ _ _ [cycA; cycB; cycC] cyc_threeCycle
                (reflexivity _)) as (HA & _ & _).
    simpl in HA. rewrite HA. set_solver. }
  assert (Hin : GraphLink.mk "b" "c" ∈ links [cycA; cycB; cycC]).
  { apply (threeCycle_link cycA cycB cycC [cycA; cycB; cycC] _ cyc_threeCycle
             (reflexivity _)).
    right. by left. }
  assert (Hdim : linkOpacity (connectionMap [cycA; cycB; cycC]) (Some "a")
                   (GraphLink.mk "b" "c") = dimmedOpacity).
  { vm_compute. reflexivity. }
  split; [done|]. split; [done|]. split; [done|].
  intros H. specialize (H (GraphLink.mk "b" "c") Hin).
  rewrite Hset, Hdim in H. apply dimmed_is_not_full, H; set_solver.
Qed.

(** C2, as the code has it.  After a rebuild with one note appended, every
    earlier note has its node in the same slot, with the same identity,
    title and group, but not at its earlier position: the rebuilt nodes are
    fresh objects without a fixed-position override, which the layout
    initialises in the same effect, each at rest on the phyllotaxis point
    of its slot.  The rebuilt drawing does not depend on what was drawn
    before. *)
Theorem rebuild_keeps_identity_only
    (math : JsMath.t) (notes : list Note.t) (extra : Note.t) (previous : drawing) :
  GraphNode.id <$> drawnNodes (d3Effect math (notes ++ [extra]) previous)
    = (Note.id <$> notes) ++ [Note.id extra]
  ∧ (∀ i n, notes !! i = Some n →
       ∃ d, drawnNodes (d3Effect math (notes ++ [extra]) previous) !! i = Some d
            ∧ GraphNode.id d = Note.id n
            ∧ GraphNode.title d = Note.title n
            ∧ GraphNode.group d = GraphNode.group (nodeOf n))
  ∧ (∀ i d, drawnNodes (d3Effect math (notes ++ [extra]) previous) !! i = Some d →
       GraphNode.x d = Some (fst (D3Force.phyllotaxis math i))
       ∧ GraphNode.y d = Some (snd (D3Force.phyllotaxis math i))
       ∧ GraphNode.fx d = Undefined ∧ GraphNode.fy d = Undefined
       ∧ GraphNode.index d = Some i
       ∧ GraphNode.vx d = Some 0%float ∧ GraphNode.vy d = Some 0%float)
  ∧ (∀ previous', d3Effect math (notes ++ [extra]) previous'
                  = d3Effect math (notes ++ [extra]) previous).
Proof.
  assert (Heff : ∀ p, d3Effect math (notes ++ [extra]) p
                      = {| drawnNodes := D3Force.initializeNodes math (nodes (notes ++ [extra]));
                           drawnLinks := links (notes ++ [extra]) |}).
  { intros p. unfold d3Effect. by destruct notes. }
  rewrite !Heff. simpl. split; [|split; [|split]].
  - change [Note.id extra] with (Note.id <$> [extra]). rewrite <- fmap_app.
    apply list_eq. intros i. unfold D3Force.initializeNodes, nodes.
    rewrite !list_lookup_fmap, list_lookup_imap, list_lookup_fmap.
    by destruct ((notes ++ [extra]) !! i).
  - intros i n Hi. exists (D3Force.initializeNode math i (nodeOf n)).
    split; [|done].
    unfold D3Force.initializeNodes, nodes.
    rewrite list_lookup_imap, list_lookup_fmap, lookup_app_l.
    + by rewrite Hi.
    + by eapply lookup_lt_Some.
  - intros i d Hd. unfold D3Force.initializeNodes, nodes in Hd.
    rewrite list_lookup_imap, list_lookup_fmap in Hd.
    destruct ((notes ++ [extra]) !! i) as [n|]; [|done].
    simpl in Hd. by assert (d = D3Force.initializeNode math i (nodeOf n)) as -> by congruence.
  - intros p. by rewrite Heff.
Qed.

(** C2, as stated, fails: one note is drawn and its node has come to rest
    at (400, 300); an unrelated note is appended; whatever the engine, the
    rebuilt node of the first note is at (7.0710678118654755, 0), the
    first point of the phyllotaxis. *)
Lemma rebuild_forgets_position :
  (λ d, (GraphNode.id d, GraphNode.x d, GraphNode.y d)) <$> drawnNodes settled
    = [("1", Some 400%float, Some 300%float)]
  ∧ links [firstNote; addedNote] = []
  ∧ (∀ math,
       (λ d, (GraphNode.id d, GraphNode.x d, GraphNode.y d))
         <$> drawnNodes (d3Effect math ([firstNote] ++ [addedNote]) settled)
       = [("1", Some 0x1.c48c6001f0acp+2%float, Some 0%float);
          ("2", Some (fst (D3Force.phyllotaxis math 1)),
                Some (snd (D3Force.phyllotaxis math 1)))]
       ∧ ¬ positionsPreserved settled
             (d3Effect math ([firstNote] ++ [addedNote]) settled)).
Proof.
  split; [reflexivity|]. split; [vm_compute; reflexivity|].
  intros math. split; [reflexivity|].
  intros H.
  destruct (H (placedAt 400 300
                 (GraphNode.set_velocity 0 (GraphNode.set_index 0 (nodeOf firstNote))))
              (D3Force.initializeNode math 0 (nodeOf firstNote))) as [_ Hy].
  - by left.
  - by left.
  - reflexivity.
  - assert (Heq : 0%float = 300%float) by (cbv in Hy; congruence).
    apply (f_equal (PrimFloat.eqb 0)) in Heq. vm_compute in Heq. discriminate Heq.
Qed.

(** C3, as the code has it.  For every body laid out with [n] well-formed
    occurrences whose captured texts stay on one line, [extractLinks]
    returns exactly the [n] captured texts, unchanged, in order and with
    their duplicates; a trailer whose [[[] is never closed adds no match,
    and without occurrences the result is empty. *)
Theorem extractLinks_single_line (occs : list occurrence) (trailer : string) :
  Forall wellFormed occs → Forall singleLine occs → unterminated trailer = true →
  extractLinks (render occs trailer) = captured <$> occs
  ∧ length (extractLinks (render occs trailer)) = length occs
  ∧ extractLinks trailer = [].
Proof.
  intros Hwf Hline Htr.
  assert (extractLinks (render occs trailer) = captured <$> occs) as ->.
  { unfold extractLinks. by rewrite linkLoop_render. }
  split; [done|]. split; [by rewrite length_fmap|].
  unfold extractLinks. by apply (linkLoop_render [] trailer []).
Qed.

Lemma extractLinks_single_line_witness :
  render demoOccurrences " then [[open"
    = "see [[Project Alpha]][[a]b ]] and ] again [[Project Alpha]] then [[open"
  ∧ extractLinks (render demoOccurrences " then [[open")
    = ["Project Alpha"; "a]b "; "Project Alpha"].
Proof.
  split; [reflexivity|].
  refine (proj1 (extractLinks_single_line demoOccurrences " then [[open" _ _ _)).
  - repeat constructor.
  - repeat constructor.
  - reflexivity.
Defined.

(** C3, as stated, fails: the body [[[a<LF>b]]] holds one well-formed
    occurrence, terminated and free of inner delimiters, and
    [extractLinks] returns no entry for it. *)
Lemma extractLinks_line_break_unmatched :
  Forall wellFormed [brokenLine]
  ∧ unterminated "" = true
  ∧ extractLinks (render [brokenLine] "") = []
  ∧ ¬ extractsAll [brokenLine] "".
Proof.
  split; [repeat constructor|]. split; [reflexivity|].
  split; [vm_compute; reflexivity|].
  unfold extractsAll. vm_compute. discriminate.
Qed.

(** C4, as the code has it.  For two notes [A] and [B] whose case-folded
    titles differ, where [B] has a non-empty identity, the body of [A]
    holds one reference that matches the title of [B] case-insensitively
    and the body of [B] holds none: the links are the one link from [A]
    to [B], and the adjacency index maps [A] to [{B}] and [B] to [{A}],
    in either order of the two notes. *)
Theorem single_reference_single_edge
    (A B : Note.t) (r : string) (notes : list Note.t) :
  notes = [A; B] ∨ notes = [B; A] →
  extractLinks (Note.content A) = [r] →
  Str.toLowerCase r = Str.toLowerCase (Note.title B) →
  extractLinks (Note.content B) = [] →
  Str.toLowerCase (Note.title A) ≠ Str.toLowerCase (Note.title B) →
  Note.id B ≠ "" →
  singleEdge notes A B.
Proof.
  intros Hnotes HA Hr HB Htitle Hid.
  assert (Hres : resolveTarget (titleToIdMap notes) r = Some (Note.id B)).
  { destruct Hnotes as [-> | ->].
    - apply (resolveTarget_last [A] [] B); [done|constructor|done].
    - apply (resolveTarget_last [] [A] B); [done| |done].
      by repeat constructor. }
  assert (Hlinks : links notes = [edge A B]).
  { rewrite links_concat.
    assert (noteLinks (titleToIdMap notes) A = [edge A B]) as HlA.
    { unfold noteLinks. rewrite HA. simpl. by rewrite Hres. }
    assert (noteLinks (titleToIdMap notes) B = []) as HlB.
    { unfold noteLinks. by rewrite HB. }
    destruct Hnotes as [-> | ->]; rewrite !bind_cons, HlA, HlB; done. }
  split; [done|].
  split; apply set_eq; intros x;
    rewrite (adjacency_of_links _ _ _ _ Hlinks), elem_of_singleton;
    unfold joins, edge; simpl.
  - split.
    + intros (l & ->%list_elem_of_singleton & H). simpl in H. naive_solver.
    + intros ->. eexists. split; [by left|]. simpl. by left.
  - split.
    + intros (l & ->%list_elem_of_singleton & H). simpl in H. naive_solver.
    + intros ->. eexists. split; [by left|]. simpl. by right.
Qed.

Lemma single_reference_single_edge_witness :
  extractLinks (Note.content alphaNote) = ["project alpha"]
  ∧ singleEdge [alphaNote; betaNote] alphaNote betaNote.
Proof.
  split; [vm_compute; reflexivity|].
  apply (single_reference_single_edge alphaNote betaNote "project alpha").
  - by left.
  - vm_compute. reflexivity.
  - vm_compute. reflexivity.
  - vm_compute. reflexivity.
  - vm_compute. discriminate.
  - discriminate.
Defined.

(** C4, as stated, fails: the one reference of [untitledOld] matches the
    title of [untitledNew], which holds no reference, yet the later note
    wins the title and the only link is a loop on [untitledOld]. *)
Lemma shared_title_self_loop :
  extractLinks (Note.content untitledOld) = ["Untitled Note"]
  ∧ Str.toLowerCase "Untitled Note" = Str.toLowerCase (Note.title untitledNew)
  ∧ extractLinks (Note.content untitledNew) = []
  ∧ links [untitledNew; untitledOld] = [edge untitledOld untitledOld]
  ∧ ¬ singleEdge [untitledNew; untitledOld] untitledOld untitledNew.
Proof.
  split; [vm_compute; reflexivity|]. split; [reflexivity|].
  split; [vm_compute; reflexivity|]. split; [vm_compute; reflexivity|].
  intros [H _]. vm_compute in H. discriminate H.
Qed.

(** C5. Among the notes that share a case-folded title, the later one in
    iteration order gives the identity that the title resolves to, in the
    index of the adjacency computation and in the index of the layout
    alike; the index is a function of the sequence of titles and
    identities alone, so a rebuild over the same note order resolves the
    same way. *)
Theorem later_note_wins (notes : list Note.t) (key : string) :
  titleToIdMap notes !! key = Note.id <$> lastWithTitle key notes
  ∧ titleToId notes !! key = Note.id <$> lastWithTitle key notes
  ∧ (∀ before n after,
       notes = before ++ n :: after →
       Forall (λ m, Str.toLowerCase (Note.title m) ≠ Str.toLowerCase (Note.title n)) after →
       titleToIdMap notes !! Str.toLowerCase (Note.title n) = Some (Note.id n))
  ∧ (∀ notes',
       (λ n, (Note.title n, Note.id n)) <$> notes' = (λ n, (Note.title n, Note.id n)) <$> notes →
       titleToIdMap notes' = titleToIdMap notes).
Proof.
  split; [apply titleToId_lookup|]. split; [apply titleToId_lookup|]. split.
  - intros before n after -> Hafter.
    change (titleToIdMap ?l) with (titleToId l).
    by rewrite titleToId_lookup, (lastWithTitle_last _ before after n).
  - intros notes' Heq. unfold titleToIdMap.
    generalize (∅ : gmap string string).
    revert notes' Heq. induction notes as [|n notes IH]; intros [|n' notes'] Heq m;
      try done.
    simpl in *. injection Heq as Ht Hi Heq. rewrite Ht, Hi. by apply IH.
Qed.

(** C6. The adjacency index is a symmetric relation: [b] is a neighbour of
    [a] exactly when [a] is a neighbour of [b]. *)
Theorem adjacency_symmetric (notes : list Note.t) (a b : string) :
  b ∈ adjacency (connectionMap notes) a ↔ a ∈ adjacency (connectionMap notes) b.
Proof.
  rewrite !adjacency_connectionMap.
  split; intros (l & Hl & H); exists l; (split; [done|]);
    unfold joins in *; tauto.
Qed.

(** C7. A reference whose case-folded text is the case-folded title of no
    note adds nothing: the callback leaves the links, and the adjacency
    map, as they were.  The nodes are the notes, one each, so no
    placeholder appears, and every link that is built starts and ends at
    the identity of a node.  All the functions involved are total, so
    nothing is raised. *)
Theorem dangling_reference_dropped
    (notes : list Note.t) (note : Note.t) (linkedTitle : string) :
  Forall (λ n, Str.toLowerCase (Note.title n) ≠ Str.toLowerCase linkedTitle) notes →
  (∀ ls, pushLink (titleToIdMap notes) note ls linkedTitle = ls)
  ∧ (∀ map, connectTitle (titleToId notes) note map linkedTitle = map)
  ∧ GraphNode.id <$> nodes notes = Note.id <$> notes
  ∧ (∀ l, l ∈ links notes →
       GraphLink.source l ∈ GraphNode.id <$> nodes notes
       ∧ GraphLink.target l ∈ GraphNode.id <$> nodes notes).
Proof.
  intros Hdangling. pose proof (resolveTarget_dangling _ _ Hdangling) as Hr.
  split; [intros ls; unfold pushLink;
          change (titleToIdMap notes) with (titleToId notes); by rewrite Hr|].
  split; [intros map; unfold connectTitle; by rewrite Hr|].
  split; [apply nodes_ids|].
  intros l (n & t & Hn & _ & Hs & Ht)%elem_of_links.
  rewrite nodes_ids. split.
  - rewrite Hs. by apply list_elem_of_fmap_2.
  - apply resolveTarget_note in Ht as (m & Hm & <- & _).
    by apply list_elem_of_fmap_2.
Qed.

Lemma dangling_reference_dropped_witness :
  Forall (λ n, Str.toLowerCase (Note.title n) ≠ Str.toLowerCase "Nope") [nopeNote]
  ∧ extractLinks (Note.content nopeNote) = ["Nope"]
  ∧ links [nopeNote] = []
  ∧ (∀ ls, pushLink (titleToIdMap [nopeNote]) nopeNote ls "Nope" = ls).
Proof.
  assert (H : Forall (λ n, Str.toLowerCase (Note.title n) ≠ Str.toLowerCase "Nope")
                [nopeNote]).
  { repeat constructor. vm_compute. discriminate. }
  split; [exact H|]. split; [vm_compute; reflexivity|].
  split; [vm_compute; reflexivity|].
  exact (proj1 (dangling_reference_dropped [nopeNote] nopeNote "Nope" H)).
Defined.

(** C8. When a drag interaction on a node ends, its fixed-position
    override is cleared: [fx] and [fy] are [null] after the [end] handler,
    whatever they held, so after a whole gesture the node is left to the
    simulation forces. *)
Theorem drag_end_clears_override (ev : Drag.event) (st : Drag.state) :
  GraphNode.fx (snd (Drag.onEnd ev st)) = Null
  ∧ GraphNode.fy (snd (Drag.onEnd ev st)) = Null
  ∧ Drag.overridden (snd (Drag.onEnd ev st)) = false
  ∧ (∀ startEv moves,
       GraphNode.fx (snd (Drag.gesture startEv moves ev st)) = Null
       ∧ GraphNode.fy (snd (Drag.gesture startEv moves ev st)) = Null
       ∧ GraphNode.x (snd (Drag.gesture startEv moves ev st)) = GraphNode.x (snd st)
       ∧ GraphNode.y (snd (Drag.gesture startEv moves ev st)) = GraphNode.y (snd st)).
Proof.
  assert (Hend : ∀ e s, GraphNode.fx (snd (Drag.onEnd e s)) = Null
                        ∧ GraphNode.fy (snd (Drag.onEnd e s)) = Null
                        ∧ GraphNode.x (snd (Drag.onEnd e s)) = GraphNode.x (snd s)
                        ∧ GraphNode.y (snd (Drag.onEnd e s)) = GraphNode.y (snd s)).
  { by intros e [sim d]. }
  assert (Hmoves : ∀ moves s,
             GraphNode.x (snd (foldl (λ st e, Drag.onDrag e st) s moves)) = GraphNode.x (snd s)
             ∧ GraphNode.y (snd (foldl (λ st e, Drag.onDrag e st) s moves)) = GraphNode.y (snd s)).
  { induction moves as [|m moves IH]; intros s; [done|].
    simpl. destruct (IH (Drag.onDrag m s)) as [-> ->]. by destruct s. }
  destruct (Hend ev st) as (Hfx & Hfy & _ & _).
  split; [done|]. split; [done|]. split.
  - unfold Drag.overridden. by rewrite Hfx, Hfy.
  - intros startEv moves. unfold Drag.gesture.
    destruct (Hend ev (foldl (λ st e, Drag.onDrag e st) (Drag.onStart startEv st) moves))
      as (-> & -> & -> & ->).
    destruct (Hmoves moves (Drag.onStart startEv st)) as [-> ->].
    by destruct st.
Qed.

(** C9. For every body, [extractTags] returns, left to right, one token
    per occurrence of [#] immediately followed by a word character; the
    token is the run of word characters after the [#], non-empty and
    without the [#].  A [#] that no word character follows yields no
    match: the tags around it are those of the text before and of the text
    after. *)
Theorem extractTags_occurrences (body : string) :
  extractTags body = tagOccurrences body
  ∧ Forall (λ token, token ≠ "" ∧ Str.all isWordChar token = true) (extractTags body)
  ∧ (∀ pre post, body = pre +:+ String "#" post → startsWithWord post = false →
       extractTags body = extractTags pre ++ extractTags post).
Proof.
  assert (Hspec : ∀ s, extractTags s = tagOccurrences s).
  { intros s. unfold extractTags. by rewrite tagLoop_spec. }
  split; [apply Hspec|]. split.
  - rewrite Hspec. apply tagOccurrences_tokens.
  - intros pre post -> Hpost. rewrite !Hspec.
    by apply tagOccurrences_hash_alone.
Qed.

(** C10. A note whose [k] references (at least one) all resolve to the
    same target identity contributes [k] equal links to the link list,
    between the links of the notes before it and those of the notes after
    it; the adjacency index holds the target once among the neighbours of
    the note, and the note once among those of the target. *)
Theorem parallel_edges_kept
    (before after : list Note.t) (n : Note.t) (targetId : string) :
  extractLinks (Note.content n) ≠ [] →
  Forall (λ r, resolveTarget (titleToIdMap (before ++ n :: after)) r = Some targetId)
         (extractLinks (Note.content n)) →
  links (before ++ n :: after)
    = (before ≫= noteLinks (titleToIdMap (before ++ n :: after)))
      ++ replicate (length (extractLinks (Note.content n)))
                   (GraphLink.mk (Note.id n) targetId)
      ++ (after ≫= noteLinks (titleToIdMap (before ++ n :: after)))
  ∧ (∃ target, target ∈ before ++ n :: after ∧ Note.id target = targetId)
  ∧ length (filter (λ b, b = targetId)
              (elements (adjacency (connectionMap (before ++ n :: after)) (Note.id n)))) = 1
  ∧ length (filter (λ b, b = Note.id n)
              (elements (adjacency (connectionMap (before ++ n :: after)) targetId))) = 1.
Proof.
  intros Hne Hall.
  assert (Hlinks : links (before ++ n :: after)
    = (before ≫= noteLinks (titleToIdMap (before ++ n :: after)))
      ++ replicate (length (extractLinks (Note.content n)))
                   (GraphLink.mk (Note.id n) targetId)
      ++ (after ≫= noteLinks (titleToIdMap (before ++ n :: after)))).
  { rewrite links_concat at 1. rewrite bind_app, bind_cons.
    by rewrite (noteLinks_same_target _ n targetId Hall). }
  assert (Hin : GraphLink.mk (Note.id n) targetId ∈ links (before ++ n :: after)).
  { rewrite Hlinks. apply elem_of_app. right. apply elem_of_app. left.
    destruct (extractLinks (Note.content n)); [done|]. by left. }
  split; [exact Hlinks|]. split.
  - destruct (extractLinks (Note.content n)) as [|r rs]; [done|].
    apply Forall_cons in Hall as [Hr _].
    apply resolveTarget_note in Hr as (t & Ht & Hid & _). by exists t.
  - split; apply filter_NoDup_once; try apply NoDup_elements;
      apply elem_of_elements, adjacency_connectionMap;
      exists (GraphLink.mk (Note.id n) targetId); (split; [done|]);
      unfold joins; simpl; tauto.
Qed.

Lemma parallel_edges_kept_witness :
  extractLinks (Note.content fanNote) = ["Philosophy"; "philosophy"; "PHILOSOPHY"]
  ∧ links [fanNote; philosophyNote]
    = [GraphLink.mk "1" "2"; GraphLink.mk "1" "2"; GraphLink.mk "1" "2"]
  ∧ elements (adjacency (connectionMap [fanNote; philosophyNote]) "1") = ["2"]
  ∧ length (filter (λ b, b = "2")
              (elements (adjacency (connectionMap ([] ++ fanNote :: [philosophyNote]))
                                   (Note.id fanNote)))) = 1.
Proof.
  split; [vm_compute; reflexivity|]. split; [vm_compute; reflexivity|].
  split; [vm_compute; reflexivity|].
  refine (proj1 (proj2 (proj2 (parallel_edges_kept [] [philosophyNote] fanNote "2" _ _)))).
  - vm_compute. discriminate.
  - vm_compute. repeat constructor.
Defined.

(** * Part V: the rest of the program *)

(** ** More of JavaScript's strings *)

Module JsString.

(** [Array.prototype.join] on an array of strings. *)
Fixpoint join (sep : string) (l : list string) : string :=
  match l with
  | [] => ""
  | [x] => x
  | x :: l' => x +:+ sep +:+ join sep l'
  end.

(** The code units that [String.prototype.trim] strips, on Latin-1: TAB,
    LF, VT, FF, CR, space and the no-break space. *)
Definition isWhiteSpace (c : ascii) : bool :=
  let n := nat_of_ascii c in
  ((9 <=? n) && (n <=? 13)) || (n =? 32) || (n =? 160).

Definition trimStart (s : string) : string := Str.dropWhile isWhiteSpace s.

Fixpoint trimEnd (s : string) : string :=
  match s with
  | "" => ""
  | String c s' =>
      match trimEnd s' with
      | "" => if isWhiteSpace c then "" else String c ""
      | t => String c t
      end
  end.

Definition trim (s : string) : string := trimEnd (trimStart s).

(** [s.includes(p)]. *)
Definition includes (s p : string) : bool := contains p s.

(** [s.slice(0, n)] for [n >= 0]. *)
Fixpoint sliceTo (n : nat) (s : string) : string :=
  match n, s with
  | S n', String c s' => String c (sliceTo n' s')
  | _, _ => ""
  end.

End JsString.

(** ** The application component *)

(** [Partial<Note>]: the fields that an update carries. *)
Module Updates.
Record t : Type := mk {
  id : option string;
  title : option string;
  content : option string;
  folder : option string;
  createdAt : option float;
  updatedAt : option float;
  tags : option (list string)
}.
End Updates.

Inductive ViewMode : Type := editor | graph | canvas.

(** An ordered [Set<string>], as the list of its elements in insertion
    order. *)
Module OrderedSet.

Definition add (s : list string) (x : string) : list string :=
  if decide (x ∈ s) then s else s ++ [x].

(** [Array.from(new Set(xs))]. *)
Definition ofList (xs : list string) : list string := foldl add [] xs.

End OrderedSet.

(** An ordered [Map<string, Note>], as the list of its entries in
    insertion order; [set] on a key that is present replaces the value in
    place. *)
Module OrderedMap.

Fixpoint set (m : list (string * Note.t)) (k : string) (v : Note.t)
  : list (string * Note.t) :=
  match m with
  | [] => [(k, v)]
  | (k', v') :: m' => if decide (k' = k) then (k, v) :: m' else (k', v') :: set m' k v
  end.

Definition values (m : list (string * Note.t)) : list Note.t := snd <$> m.

End OrderedMap.

Module App.

Record state : Type := {
  notes : list Note.t;
  folders : list string;
  activeNoteId : option string;
  searchQuery : string;
  viewMode : ViewMode
}.

Definition setNotes (ns : list Note.t) (st : state) : state :=
  {| notes := ns; folders := folders st; activeNoteId := activeNoteId st;
     searchQuery := searchQuery st; viewMode := viewMode st |}.

Definition setFolders (fs : list string) (st : state) : state :=
  {| notes := notes st; folders := fs; activeNoteId := activeNoteId st;
     searchQuery := searchQuery st; viewMode := viewMode st |}.

Definition setActiveNoteId (a : option string) (st : state) : state :=
  {| notes := notes st; folders := folders st; activeNoteId := a;
     searchQuery := searchQuery st; viewMode := viewMode st |}.

Definition setViewMode (v : ViewMode) (st : state) : state :=
  {| notes := notes st; folders := folders st; activeNoteId := activeNoteId st;
     searchQuery := searchQuery st; viewMode := v |}.

(** [notes.find(n => n.id === activeNoteId)]. *)
Definition activeNote (st : state) : option Note.t :=
  List.find (λ n, bool_decide (Some (Note.id n) = activeNoteId st)) (notes st).

(** [handleCreateNote]: [stamp] is the text of the first [Date.now()],
    [created] and [updated] are the next two readings. *)
Definition handleCreateNote (stamp : string) (created updated : float)
    (st : state) : state :=
  let newNote := Note.mk stamp "Untitled Note" "" "Inbox" created updated [] in
  setViewMode editor (setActiveNoteId (Some stamp) (setNotes (newNote :: notes st) st)).

(** [{ ...n, ...updates, updatedAt: Date.now() }], then the tags are
    extracted again when the update carries a content. *)
Definition updateNote (now : float) (u : Updates.t) (n : Note.t) : Note.t :=
  let updated :=
    Note.mk (default (Note.id n) (Updates.id u))
            (default (Note.title n) (Updates.title u))
            (default (Note.content n) (Updates.content u))
            (default (Note.folder n) (Updates.folder u))
            (default (Note.createdAt n) (Updates.createdAt u))
            now
            (default (Note.tags n) (Updates.tags u)) in
  match Updates.content u with
  | Some c =>
      Note.mk (Note.id updated) (Note.title updated) (Note.content updated)
              (Note.folder updated) (Note.createdAt updated) (Note.updatedAt updated)
              (extractTags c)
  | None => updated
  end.

Definition handleUpdateNote (now : float) (id : string) (u : Updates.t)
    (st : state) : state :=
  setNotes ((λ n, if decide (Note.id n ≠ id) then n else updateNote now u n) <$> notes st) st.

(** [handleDeleteNote]: [confirmed] is the answer to the [confirm]
    dialogue. *)
Definition handleDeleteNote (confirmed : bool) (id : string) (st : state) : state :=
  if confirmed then
    let st' := setNotes (filter (λ n, Note.id n ≠ id) (notes st)) st in
    if decide (activeNoteId st = Some id) then setActiveNoteId None st' else st'
  else st.

(** [handleCreateFolder]: [name] is what [prompt] returned, [None] for
    [null]; the write to the storage and the alert are left out. *)
Definition handleCreateFolder (name : option string) (st : state) : state :=
  match name with
  | Some name =>
      if truthy name && negb (String.eqb (JsString.trim name) "") then
        if decide (JsString.trim name ∈ folders st) then st
        else setFolders (folders st ++ [JsString.trim name]) st
      else st
  | None => st
  end.

(** The merge of [handleImportData]. *)
Definition mergeFolders (folders dataFolders : list string) : list string :=
  OrderedSet.ofList (folders ++ dataFolders).

Definition mergeNotes (notes dataNotes : list Note.t) : list Note.t :=
  OrderedMap.values
    (foldl (λ m n, OrderedMap.set m (Note.id n) n)
           (foldl (λ m n, OrderedMap.set m (Note.id n) n) [] notes)
           dataNotes).

(** [handleImportData] after [JSON.parse]: a field of the data is [Some]
    when it is present and an array. *)
Definition handleImportData (dataFolders : option (list string))
    (dataNotes : option (list Note.t)) (st : state) : state :=
  let st1 := match dataFolders with
             | Some fs => setFolders (mergeFolders (folders st) fs) st
             | None => st
             end in
  match dataNotes with
  | Some ns => setNotes (mergeNotes (notes st) ns) st1
  | None => st1
  end.

Definition filteredNotes (st : state) : list Note.t :=
  filter (λ n, JsString.includes (Str.toLowerCase (Note.title n))
                                 (Str.toLowerCase (searchQuery st)) = true)
         (notes st).

(** The file tree: one group per folder, with the found notes of that
    folder. *)
Definition fileTree (st : state) : list (string * list Note.t) :=
  (λ folder, (folder, filter (λ n, Note.folder n = folder) (filteredNotes st)))
    <$> folders st.

(** The tags shown under the title: [tags.map(t => `#${t}`).join(' ')]. *)
Definition tagLine (tags : list string) : string :=
  JsString.join " " ((λ t, "#" +:+ t) <$> tags).

(** [onNodeClick] of the graph view and [onOpenNote] of the canvas. *)
Definition openNote (id : string) (st : state) : state :=
  setViewMode editor (setActiveNoteId (Some id) st).

End App.

(** ** Selection in the graph view *)

Module Selection.



End Selection.

(** ** The canvas board *)

Inductive CanvasNodeType : Type := noteNode | textNode | imageNode.

Module CanvasNode.
Record t : Type := mk {
  id : string;
  noteId : option string;
  text : option string;
  x : float;
  y : float;
  width : float;
  height : float;
  type : CanvasNodeType
}.
End CanvasNode.

Module CanvasBoard.

Record state : Type := {
  nodes : list CanvasNode.t;
  draggingId : option string;
  dragOffset : float * float
}.

(** A length as a number. *)
Definition numberOfNat (n : nat) : float :=
  PrimFloat.of_uint63 (Uint63.of_Z (Z.of_nat n)).

(** [addNode]: [randomId] is [Math.random().toString(36).substr(2, 9)]. *)
Definition addNode (randomId : string) (note : Note.t) (st : state) : state :=
  match List.find (λ n, bool_decide (CanvasNode.noteId n = Some (Note.id note))) (nodes st) with
  | Some _ => st
  | None =>
      let offset := PrimFloat.add 100 (PrimFloat.mul (numberOfNat (length (nodes st))) 20) in
      let newNode :=
        CanvasNode.mk randomId (Some (Note.id note)) None offset offset 250 150 noteNode in
      {| nodes := nodes st ++ [newNode];
         draggingId := draggingId st; dragOffset := dragOffset st |}
  end.

Definition handleDragStart (clientX clientY : float) (id : string) (st : state) : state :=
  match List.find (λ n, bool_decide (CanvasNode.id n = id)) (nodes st) with
  | None => st
  | Some node =>
      {| nodes := nodes st;
         draggingId := Some id;
         dragOffset := (PrimFloat.sub clientX (CanvasNode.x node),
                        PrimFloat.sub clientY (CanvasNode.y node)) |}
  end.

Definition moveTo (px py : float) (n : CanvasNode.t) : CanvasNode.t :=
  CanvasNode.mk (CanvasNode.id n) (CanvasNode.noteId n) (CanvasNode.text n)
                px py (CanvasNode.width n) (CanvasNode.height n) (CanvasNode.type n).

Definition handleMouseMove (clientX clientY : float) (st : state) : state :=
  match selection (draggingId st) with
  | None => st
  | Some dragging =>
      {| nodes := (λ n, if decide (CanvasNode.id n ≠ dragging) then n
                        else moveTo (PrimFloat.sub clientX (fst (dragOffset st)))
                                    (PrimFloat.sub clientY (snd (dragOffset st))) n)
                  <$> nodes st;
         draggingId := draggingId st; dragOffset := dragOffset st |}
  end.

Definition handleMouseUp (st : state) : state :=
  {| nodes := nodes st; draggingId := None; dragOffset := dragOffset st |}.

Definition removeNode (id : string) (st : state) : state :=
  {| nodes := filter (λ n, CanvasNode.id n ≠ id) (nodes st);
     draggingId := draggingId st; dragOffset := dragOffset st |}.

(** [getNote]: the note of a canvas node, if there is one. *)
Definition getNote (notes : list Note.t) (id : option string) : option Note.t :=
  List.find (λ n, bool_decide (Some (Note.id n) = id)) notes.

(** The canvas nodes that are drawn: those whose note exists. *)
Definition drawn (notes : list Note.t) (st : state) : list CanvasNode.t :=
  filter (λ node, is_Some (getNote notes (CanvasNode.noteId node))) (nodes st).

(** The preview of a note on its card. *)
Definition preview (content : string) : string :=
  JsString.sliceTo 150 content
  +:+ (if (150 <? String.length content)%nat then "..." else "").

End CanvasBoard.

(** ** Notions used in the further properties *)

(** [t] stands in [body] between an opening and a closing delimiter. *)
Definition delimitedIn (body t : string) : Prop :=
  ∃ pre post, body = pre +:+ "[[" +:+ t +:+ "]]" +:+ post.

(** [t] stays on one line, and no closing delimiter starts inside [t]
    followed by a bracket. *)
Definition closesLate (t : string) : Prop :=
  Str.all (λ x, negb (isLineTerminator x)) t = true
  ∧ contains "]]" (t +:+ "]") = false.

(** The value stored under a key of an ordered map. *)
Fixpoint assoc (m : list (string * Note.t)) (k : string) : option Note.t :=
  match m with
  | [] => None
  | (k', v) :: m' => if decide (k' = k) then Some v else assoc m' k
  end.

(** The later note with the identity [k]. *)
Fixpoint lastWithId (k : string) (ns : list Note.t) : option Note.t :=
  match ns with
  | [] => None
  | n :: rest =>
      match lastWithId k rest with
      | Some m => Some m
      | None => if decide (Note.id n = k) then Some n else None
      end
  end.

(** [ns.forEach(n => m.set(n.id, n))]. *)
Definition setAll (m : list (string * Note.t)) (ns : list Note.t)
  : list (string * Note.t) :=
  foldl (λ m n, OrderedMap.set m (Note.id n) n) m ns.

(** Every note of the map is stored under its own identity. *)
Definition keyed (m : list (string * Note.t)) : Prop :=
  Forall (λ kv, Note.id kv.2 = kv.1) m.

(** The update that the text area of the editor sends. *)
Definition contentOnly (c : string) : Updates.t :=
  Updates.mk None None (Some c) None None None None.

(** Everything of a card but its position. *)
Definition cardFrame (n : CanvasNode.t)
  : string * option string * option string * float * float * CanvasNodeType :=
  (CanvasNode.id n, CanvasNode.noteId n, CanvasNode.text n,
   CanvasNode.width n, CanvasNode.height n, CanvasNode.type n).

(** * Part VI: further properties of the program *)

(** ** Extraction *)

Lemma tagOccurrences_separator pre c post :
  isWordChar c = false →
  tagOccurrences (pre +:+ String c post)
  = tagOccurrences pre ++ tagOccurrences (String c post).
Proof.
  intros Hc. induction pre as [|x pre IH]; [done|].
  rewrite append_cons. cbn [tagOccurrences]. rewrite IH.
  rewrite (takeWhile_app_stop isWordChar pre c post) by done.
  assert (startsWithWord (pre +:+ String c post) = startsWithWord pre) as ->.
  { destruct pre; [simpl; by rewrite Hc|done]. }
  by destruct (Ascii.eqb x "#" && startsWithWord pre).
Qed.

Lemma extractTags_spec s : extractTags s = tagOccurrences s.
Proof. unfold extractTags. by rewrite tagLoop_spec. Qed.

(** X1.  Tags never reach across a code unit that is neither a word character
    nor [#]: the tags of a text cut at such a unit are the tags of the
    part before it followed by the tags of the part after it. *)
Theorem extractTags_split pre c post :
  isWordChar c = false → c ≠ "#"%char →
  extractTags (pre +:+ String c post) = extractTags pre ++ extractTags post.
Proof.
  intros Hc Hhash. rewrite !extractTags_spec, tagOccurrences_separator by done.
  f_equal. cbn [tagOccurrences].
  by destruct (Ascii.eqb_spec c "#").
Qed.

Lemma extractTags_split_witness :
  extractTags ("#welcome" +:+ String "010" "#start now")
  = extractTags "#welcome" ++ extractTags "#start now".
Proof. apply extractTags_split; [reflexivity|discriminate]. Defined.

Lemma takeWhile_all_id p s : Str.all p s = true → Str.takeWhile p s = s.
Proof.
  induction s as [|c s IH]; [done|]. simpl. intros [Hc Hs]%andb_true_iff.
  by rewrite Hc, IH.
Qed.

Lemma tagOccurrences_hash_word t rest :
  t ≠ "" → Str.all isWordChar t = true → startsWithWord rest = false →
  tagOccurrences (String "#" (t +:+ rest)) = t :: tagOccurrences rest.
Proof.
  intros Ht Hw Hrest. cbn [tagOccurrences].
  assert (startsWithWord (t +:+ rest) = true) as ->.
  { destruct t as [|c t]; [done|]. simpl in *. by apply andb_true_iff in Hw as [-> _]. }
  simpl. f_equal.
  - destruct rest as [|c rest].
    + rewrite append_nil_r. by apply takeWhile_all_id.
    + rewrite takeWhile_app_stop by exact Hrest. by apply takeWhile_all_id.
  - by apply tagOccurrences_skip_word.
Qed.

Lemma tagOccurrences_tagLine tags :
  Forall (λ t, t ≠ "" ∧ Str.all isWordChar t = true) tags →
  tagOccurrences (App.tagLine tags) = tags.
Proof.
  unfold App.tagLine. induction 1 as [|t tags [Ht Hw] Htags IH]; [done|].
  destruct tags as [|t' tags].
  - pose proof (tagOccurrences_hash_word t "" Ht Hw eq_refl) as Hone.
    rewrite append_nil_r in Hone. exact Hone.
  - change (JsString.join " " ((λ t0, "#" +:+ t0) <$> t :: t' :: tags))
      with (String "#" t +:+ " " +:+ JsString.join " " ((λ t0, "#" +:+ t0) <$> t' :: tags)).
    rewrite append_cons, tagOccurrences_hash_word; [|done..].
    f_equal. exact IH.
Qed.

(** X2.  The tag line of the editor reads back: extracting the tags of the
    line [#t1 #t2 ...] built from a list of non-empty words gives the list
    again, so the tags stored for a note are those of their own display. *)
Theorem extractTags_tagLine (body : string) (tags : list string) :
  extractTags (App.tagLine (extractTags body)) = extractTags body
  ∧ (Forall (λ t, t ≠ "" ∧ Str.all isWordChar t = true) tags →
     extractTags (App.tagLine tags) = tags).
Proof.
  split.
  - rewrite (extractTags_spec (App.tagLine _)), tagOccurrences_tagLine; [done|].
    rewrite extractTags_spec. apply tagOccurrences_tokens.
  - intros H. by rewrite extractTags_spec, tagOccurrences_tagLine.
Qed.

Lemma stripPrefix_close_step x c r :
  Str.stripPrefix "]]" (String x (c +:+ "]]" +:+ r)) = None →
  Str.stripPrefix "]]" (String x (c +:+ "]")) = None.
Proof.
  cbn [Str.stripPrefix]. destruct (Ascii.eqb "]" x); [|done].
  destruct c as [|y c]; rewrite ?append_cons, ?append_nil_l; cbn [Str.stripPrefix].
  - by rewrite Ascii.eqb_refl.
  - by destruct (Ascii.eqb "]" y).
Qed.

(** What a successful lazy scan has consumed. *)
Lemma lazyUntilClose_Some s cap rest :
  lazyUntilClose s = Some (cap, rest) →
  s = cap +:+ "]]" +:+ rest
  ∧ Str.all (λ x, negb (isLineTerminator x)) cap = true
  ∧ contains "]]" (cap +:+ "]") = false.
Proof.
  revert cap rest. induction s as [|x s IH]; intros cap rest H; [done|].
  cbn [lazyUntilClose] in H.
  destruct (Str.stripPrefix "]]" (String x s)) as [r|] eqn:Hp.
  - assert (cap = "" ∧ rest = r) as [-> ->] by (split; congruence).
    apply stripPrefix_Some in Hp. done.
  - destruct (isLineTerminator x) eqn:Hx; [done|].
    destruct (lazyUntilClose s) as [[cap0 rest0]|] eqn:Hs; [|done].
    assert (cap = String x cap0 ∧ rest = rest0) as [-> ->] by (split; congruence).
    destruct (IH _ _ eq_refl) as (-> & Hline & Hclose).
    split; [done|]. split; [simpl; by rewrite Hx|].
    rewrite append_cons. cbn [contains].
    by rewrite (stripPrefix_close_step _ _ _ Hp).
Qed.

Lemma exec_Some_split matchAt s cap rest :
  exec matchAt s = Some (cap, rest) →
  ∃ pre tail, s = pre +:+ tail ∧ matchAt tail = Some (cap, rest).
Proof.
  induction s as [|x s IH]; simpl; intros H.
  - destruct (matchAt "") eqn:E; [|done]. exists "", "". split; [done|congruence].
  - destruct (matchAt (String x s)) eqn:E.
    + exists "", (String x s). split; [done|congruence].
    + destruct (IH H) as (pre & tail & -> & Ht).
      by exists (String x pre), tail.
Qed.

Lemma execLink_Some s cap rest :
  execLink s = Some (cap, rest) →
  closesLate cap ∧ ∃ pre, s = pre +:+ "[[" +:+ cap +:+ "]]" +:+ rest.
Proof.
  intros (pre & tail & -> & Hm)%exec_Some_split. unfold matchLinkAt in Hm.
  destruct (Str.stripPrefix "[[" tail) as [s'|] eqn:Hp; [|done].
  apply stripPrefix_Some in Hp as ->.
  apply lazyUntilClose_Some in Hm as (-> & Hline & Hclose).
  split; [done|]. by exists pre.
Qed.

Lemma linkLoop_sound rest matches pre :
  Forall (λ t, closesLate t ∧ delimitedIn (pre +:+ rest) t) matches →
  Forall (λ t, closesLate t ∧ delimitedIn (pre +:+ rest) t) (linkLoop rest matches).
Proof.
  revert pre. funelim (linkLoop rest matches); intros pre Hacc.
  - match goal with E : execLink _ = Some _ |- _ =>
      destruct (execLink_Some _ _ _ E) as (Hm & p & Hrest) end.
    subst rest.
    match goal with IH : ∀ pre, _ → Forall _ (linkLoop _ _) |- _ =>
      specialize (IH (pre +:+ p +:+ "[[" +:+ m +:+ "]]")) end.
    rewrite !append_assoc in *. apply H. apply Forall_app. split; [done|].
    constructor; [|constructor]. split; [done|].
    exists (pre +:+ p), rest'. by rewrite !append_assoc.
  - done.
Qed.

(** X3.  Every entry that [extractLinks] returns stands in the body between
    [[[] and []]], holds no line terminator, and neither holds []]] nor
    ends in []]: it is what the first closing delimiter after its opening
    one encloses. *)
Theorem extractLinks_sound (body : string) :
  Forall (λ t, closesLate t ∧ delimitedIn body t) (extractLinks body).
Proof. unfold extractLinks. by apply (linkLoop_sound body [] ""). Qed.

Lemma stripPrefix_before p s c b :
  Str.all (λ a, negb (Ascii.eqb a c)) p = true →
  Str.stripPrefix p (s +:+ String c b) = (λ r, r +:+ String c b) <$> Str.stripPrefix p s.
Proof.
  revert s. induction p as [|a p IH]; intros s Hp; [done|].
  simpl in Hp. apply andb_true_iff in Hp as [Ha Hp]. apply negb_true_iff in Ha.
  destruct s as [|x s]; rewrite ?append_cons, ?append_nil_l; cbn [Str.stripPrefix].
  - by rewrite Ha.
  - destruct (Ascii.eqb a x); [by apply IH|done].
Qed.

Lemma lineTerminator_not c a :
  isLineTerminator c = true → isLineTerminator a = false → Ascii.eqb a c = false.
Proof.
  intros Hc Ha. destruct (Ascii.eqb_spec a c) as [->|]; [congruence|done].
Qed.

Lemma lazyUntilClose_before_line_end s c b :
  isLineTerminator c = true →
  lazyUntilClose (s +:+ String c b)
  = (λ r, (r.1, r.2 +:+ String c b)) <$> lazyUntilClose s.
Proof.
  intros Hc.
  assert (Hclose : Str.all (λ a, negb (Ascii.eqb a c)) "]]" = true).
  { cbn [Str.all]. by rewrite (lineTerminator_not c "]" Hc eq_refl). }
  induction s as [|x s IH].
  - rewrite append_nil_l. cbn [lazyUntilClose].
    pose proof (stripPrefix_before "]]" "" c b Hclose) as H.
    rewrite append_nil_l in H. rewrite H. simpl. by rewrite Hc.
  - rewrite append_cons. cbn [lazyUntilClose].
    rewrite <- append_cons, (stripPrefix_before "]]" (String x s) c b Hclose).
    destruct (Str.stripPrefix "]]" (String x s)); [done|]. simpl.
    destruct (isLineTerminator x); [done|]. rewrite IH.
    by destruct (lazyUntilClose s) as [[cap r]|].
Qed.

Lemma matchLinkAt_before_line_end s c b :
  isLineTerminator c = true →
  matchLinkAt (s +:+ String c b)
  = (λ r, (r.1, r.2 +:+ String c b)) <$> matchLinkAt s.
Proof.
  intros Hc. unfold matchLinkAt.
  assert (Hopen : Str.all (λ a, negb (Ascii.eqb a c)) "[[" = true).
  { cbn [Str.all]. by rewrite (lineTerminator_not c "[" Hc eq_refl). }
  rewrite (stripPrefix_before "[[" s c b Hopen).
  destruct (Str.stripPrefix "[[" s); [|done]. simpl.
  by apply lazyUntilClose_before_line_end.
Qed.

Lemma execLink_before_line_end s c b :
  isLineTerminator c = true →
  execLink (s +:+ String c b)
  = match execLink s with
    | Some r => Some (r.1, r.2 +:+ String c b)
    | None => execLink b
    end.
Proof.
  intros Hc. unfold execLink. induction s as [|x s IH].
  - rewrite append_nil_l. cbn [exec].
    pose proof (matchLinkAt_before_line_end "" c b Hc) as H.
    rewrite append_nil_l in H. rewrite H. done.
  - rewrite append_cons. cbn [exec].
    rewrite <- append_cons, (matchLinkAt_before_line_end (String x s) c b Hc).
    destruct (matchLinkAt (String x s)); [done|]. simpl. by rewrite IH.
Qed.

Lemma linkLoop_prepend rest matches :
  ∀ front, linkLoop rest (front ++ matches) = front ++ linkLoop rest matches.
Proof.
  funelim (linkLoop rest matches); intros front.
  - rewrite (linkLoop_step rest (front ++ matches)).
    match goal with E : execLink _ = Some _ |- _ => rewrite E end.
    rewrite <- app_assoc.
    match goal with IH : ∀ front, linkLoop _ _ = _ |- _ => by rewrite IH end.
  - rewrite (linkLoop_step rest (front ++ matches)).
    match goal with E : execLink _ = None |- _ => by rewrite E end.
Qed.

Lemma linkLoop_matches rest matches : linkLoop rest matches = matches ++ linkLoop rest [].
Proof. rewrite <- (app_nil_r matches) at 1. apply linkLoop_prepend. Qed.

Lemma linkLoop_line_end a matches :
  ∀ c b, isLineTerminator c = true →
    linkLoop (a +:+ String c b) matches = linkLoop b (linkLoop a matches).
Proof.
  funelim (linkLoop a matches); intros c b Hc.
  - match goal with IH : ∀ c b, _ → linkLoop _ _ = _ |- _ => rewrite <- (IH c b Hc) end.
    rewrite linkLoop_step, (execLink_before_line_end rest c b Hc).
    match goal with E : execLink _ = Some _ |- _ => by rewrite E end.
  - rewrite linkLoop_step, (execLink_before_line_end rest c b Hc).
    match goal with E : execLink _ = None |- _ => rewrite E end.
    by rewrite <- linkLoop_step.
Qed.

(** X4.  References are found line by line: no reference reaches across a
    line terminator, so the links of a text are the links of what stands
    before the terminator followed by the links of what stands after
    it. *)
Theorem extractLinks_by_line (a : string) (c : ascii) (b : string) :
  isLineTerminator c = true →
  extractLinks (a +:+ String c b) = extractLinks a ++ extractLinks b.
Proof.
  intros Hc. unfold extractLinks.
  by rewrite linkLoop_line_end, linkLoop_matches.
Qed.

Lemma extractLinks_by_line_witness :
  extractLinks ("Try [[Philosophy]] or [[Project" +:+ String "010" " Alpha]] and [[Zettel]]")
  = extractLinks "Try [[Philosophy]] or [[Project" ++ extractLinks " Alpha]] and [[Zettel]]".
Proof. apply extractLinks_by_line. reflexivity. Defined.

(** ** The graph builder *)

Lemma connect_is_Some (s t a : string) (map : gmap string (gset string)) :
  is_Some (connect s t map !! a) ↔ is_Some (map !! a) ∨ a = s ∨ a = t.
Proof.
  unfold connect. rewrite !lookup_alter.
  repeat case_decide; subst;
    repeat (rewrite ?lookup_insert_eq, ?lookup_insert_ne in * by done);
    rewrite ?fmap_is_Some; naive_solver.
Qed.

Lemma foldl_connectLink_is_Some (ls : list GraphLink.t) (map : gmap string (gset string)) a :
  is_Some (foldl connectLink map ls !! a) ↔
  is_Some (map !! a) ∨ ∃ l, l ∈ ls ∧ (a = GraphLink.source l ∨ a = GraphLink.target l).
Proof.
  revert map. induction ls as [|l ls IH]; intros map; simpl.
  - split; [by left|]. intros [?|(l & Hl & _)]; [done|]. by apply elem_of_nil in Hl.
  - rewrite IH. unfold connectLink. rewrite connect_is_Some. split.
    + intros [[H|H]|(l' & Hl' & H)].
      * by left.
      * right. exists l. split; [by left|done].
      * right. exists l'. split; [by right|done].
    + intros [H|(l' & Hl' & H)]; [by left; left|].
      apply elem_of_cons in Hl' as [->|Hl'].
      * left. by right.
      * right. by exists l'.
Qed.

Lemma link_endpoints_are_notes (notes : list Note.t) (l : GraphLink.t) :
  l ∈ links notes →
  GraphLink.source l ∈ Note.id <$> notes ∧ GraphLink.target l ∈ Note.id <$> notes.
Proof.
  intros (n & t & Hn & _ & Hs & Ht)%elem_of_links. split.
  - rewrite Hs. by apply list_elem_of_fmap_2.
  - apply resolveTarget_note in Ht as (m & Hm & <- & _).
    by apply list_elem_of_fmap_2.
Qed.

(** X5.  The adjacency map holds no empty set and no stranger: every key is
    the identity of a note, its set of neighbours is not empty, and every
    neighbour is the identity of a note. *)
Theorem connectionMap_entries (notes : list Note.t) :
  map_Forall (λ a neighbors,
                neighbors ≠ ∅
                ∧ a ∈ Note.id <$> notes
                ∧ ∀ b, b ∈ neighbors → b ∈ Note.id <$> notes)
             (connectionMap notes).
Proof.
  intros a neighbors Ha.
  assert (Hadj : adjacency (connectionMap notes) a = neighbors).
  { unfold adjacency. by rewrite Ha. }
  assert (Hkey : ∃ l, l ∈ links notes ∧ (a = GraphLink.source l ∨ a = GraphLink.target l)).
  { assert (is_Some (connectionMap notes !! a)) as Hsome by by eexists.
    rewrite connectionMap_links in Hsome.
    apply foldl_connectLink_is_Some in Hsome as [Hsome|Hsome]; [|done].
    rewrite lookup_empty in Hsome. by destruct Hsome. }
  destruct Hkey as (l & Hl & Hends).
  destruct (link_endpoints_are_notes _ _ Hl) as [Hsrc Htgt].
  split; [|split].
  - rewrite <- Hadj. intros Hempty.
    destruct Hends as [-> | ->].
    + assert (GraphLink.target l ∈ adjacency (connectionMap notes) (GraphLink.source l)) as Hin.
      { apply adjacency_connectionMap. exists l. split; [done|]. by left. }
      rewrite Hempty in Hin. by apply not_elem_of_empty in Hin.
    + assert (GraphLink.source l ∈ adjacency (connectionMap notes) (GraphLink.target l)) as Hin.
      { apply adjacency_connectionMap. exists l. split; [done|]. by right. }
      rewrite Hempty in Hin. by apply not_elem_of_empty in Hin.
  - by destruct Hends as [-> | ->].
  - intros b Hb. rewrite <- Hadj in Hb.
    apply adjacency_connectionMap in Hb as (l' & Hl' & Hj).
    destruct (link_endpoints_are_notes _ _ Hl') as [Hsrc' Htgt'].
    destruct Hj as [[_ ->]|[_ ->]]; done.
Qed.

Lemma noteLinks_length (index : gmap string string) (n : Note.t) :
  length (noteLinks index n) ≤ length (extractLinks (Note.content n)).
Proof.
  unfold noteLinks.
  induction (extractLinks (Note.content n)) as [|r rs IH]; [done|].
  csimpl. destruct (resolveTarget index r); csimpl; lia.
Qed.

(** X6.  No link without a reference: every link stems from a reference in the
    body of a note with the source identity, whose case-folded text is the
    case-folded title of a note with the target identity; a target
    identity is never the empty string; and there are at most as many
    links as references. *)
Theorem links_from_references (notes : list Note.t) :
  Forall (λ l, GraphLink.target l ≠ ""
               ∧ ∃ source target r,
                   source ∈ notes ∧ target ∈ notes
                   ∧ Note.id source = GraphLink.source l
                   ∧ Note.id target = GraphLink.target l
                   ∧ r ∈ extractLinks (Note.content source)
                   ∧ Str.toLowerCase r = Str.toLowerCase (Note.title target))
         (links notes)
  ∧ length (links notes)
    ≤ sum_list ((λ n, length (extractLinks (Note.content n))) <$> notes).
Proof.
  split.
  - apply Forall_forall. intros l (n & r & Hn & Hr & Hs & Ht)%elem_of_links.
    pose proof Ht as [_ Hne]%resolveTarget_Some.
    apply resolveTarget_note in Ht as (m & Hm & Hid & Htitle).
    split; [done|]. exists n, m, r. split_and!; done.
  - rewrite links_concat. generalize (titleToIdMap notes). intros index.
    induction notes as [|n notes IH]; [done|].
    rewrite bind_cons, length_app, fmap_cons. cbn [sum_list sum_list_with].
    apply Nat.add_le_mono; [apply noteLinks_length | exact IH].
Qed.

(** ** Highlight and selection *)

(** Two number literals that differ. *)
Ltac float_discriminate H :=
  match type of H with
  | _ = ?b => apply (f_equal (PrimFloat.eqb b)) in H; vm_compute in H; discriminate H
  end.

Lemma isDirectLink_true (cm : gmap string (gset string)) (s : string) (l : GraphLink.t) :
  isDirectLink cm s l = true ↔
  (GraphLink.source l = s ∧ isConnected cm s (GraphLink.target l) = true)
  ∨ (GraphLink.target l = s ∧ isConnected cm s (GraphLink.source l) = true).
Proof.
  unfold isDirectLink. cbv zeta.
  rewrite orb_true_iff, !andb_true_iff, !bool_decide_eq_true. done.
Qed.

Lemma isConnected_self (cm : gmap string (gset string)) (s : string) :
  isConnected cm s s = true.
Proof. unfold isConnected. by case_decide. Qed.

(** X7.  The three attributes of a link agree, and a highlighted link never
    ends at a dimmed node: a link is at full opacity exactly when it has
    the accent colour, and exactly when it has the accent width, and then
    the circles and labels of both of its ends are at full opacity. *)
Theorem highlighted_link_consistent
    (cm : gmap string (gset string)) (sel : option string) (l : GraphLink.t) :
  (linkOpacity cm sel l = 1%float ↔ linkStroke cm sel l = "#7c3aed")
  ∧ (linkOpacity cm sel l = 1%float ↔ linkStrokeWidth cm sel l = 2.5%float)
  ∧ (∀ d, linkOpacity cm sel l = 1%float →
          GraphNode.id d = GraphLink.source l ∨ GraphNode.id d = GraphLink.target l →
          nodeOpacity cm sel d = 1%float ∧ labelOpacity cm sel d = 1%float).
Proof.
  unfold linkOpacity, linkStroke, linkStrokeWidth, nodeOpacity, labelOpacity.
  destruct (selection sel) as [s|].
  - destruct (isDirectLink cm s l) eqn:E.
    + split; [done|]. split; [done|]. intros d _ Hd.
      apply isDirectLink_true in E.
      assert (isConnected cm s (GraphNode.id d) = true) as ->; [|done].
      destruct Hd as [-> | ->], E as [[Hs Hc] | [Ht Hc]];
        rewrite ?Hs, ?Ht; auto using isConnected_self.
    + split; [|split].
      * split; [intros H; float_discriminate H | discriminate].
      * split; intros H; float_discriminate H.
      * intros d H. float_discriminate H.
  - split; [|split].
    + split; [intros H; float_discriminate H | discriminate].
    + split; intros H; float_discriminate H.
    + intros d H. float_discriminate H.
Qed.

(** X8.  Selecting a node without neighbours leaves only that node lit: a node
    is at full opacity exactly when it carries the selected identity, and
    every link of the graph is dimmed. *)
Theorem isolated_selection (notes : list Note.t) (s : string) :
  s ≠ "" → adjacency (connectionMap notes) s = ∅ →
  (∀ d, nodeOpacity (connectionMap notes) (Some s) d
        = if decide (GraphNode.id d = s) then 1%float else dimmedOpacity)
  ∧ Forall (λ l, linkOpacity (connectionMap notes) (Some s) l = dimmedOpacity)
           (links notes).
Proof.
  intros Hs Hadj. split.
  - intros d. unfold nodeOpacity. rewrite (truthy_selection s Hs).
    case_decide as Hd.
    + by rewrite Hd, isConnected_self.
    + assert (isConnected (connectionMap notes) s (GraphNode.id d) = false) as ->; [|done].
      apply not_true_iff_false. rewrite isConnected_true, Hadj. set_solver.
  - apply Forall_forall. intros l Hl. unfold linkOpacity.
    rewrite (truthy_selection s Hs), (isDirectLink_incident _ _ _ Hl).
    rewrite bool_decide_eq_false_2; [done|]. intros [Hsrc|Htgt].
    + assert (GraphLink.target l ∈ adjacency (connectionMap notes) s) as Hin.
      { apply adjacency_connectionMap. exists l. split; [done|]. by left. }
      rewrite Hadj in Hin. by apply not_elem_of_empty in Hin.
    + assert (GraphLink.source l ∈ adjacency (connectionMap notes) s) as Hin.
      { apply adjacency_connectionMap. exists l. split; [done|]. by right. }
      rewrite Hadj in Hin. by apply not_elem_of_empty in Hin.
Qed.

Lemma isolated_selection_witness :
  links [alphaNote; betaNote; addedNote] = [GraphLink.mk "1" "4"]
  ∧ nodeOpacity (connectionMap [alphaNote; betaNote; addedNote]) (Some "2")
                (nodeOf alphaNote) = dimmedOpacity
  ∧ linkOpacity (connectionMap [alphaNote; betaNote; addedNote]) (Some "2")
                (GraphLink.mk "1" "4") = dimmedOpacity.
Proof.
  assert (Hlinks : links [alphaNote; betaNote; addedNote] = [GraphLink.mk "1" "4"]).
  { vm_compute. reflexivity. }
  destruct (isolated_selection [alphaNote; betaNote; addedNote] "2") as [Hnodes Hall].
  - discriminate.
  - vm_compute. reflexivity.
  - split; [exact Hlinks|]. split.
    + exact (Hnodes (nodeOf alphaNote)).
    + rewrite Hlinks in Hall. exact (Forall_inv Hall).
Defined.



(** ** Dragging *)

Lemma onDrag_fixes (ev : Drag.event) (st : Drag.state) :
  GraphNode.fx (snd (Drag.onDrag ev st)) = Num (Drag.x ev)
  ∧ GraphNode.fy (snd (Drag.onDrag ev st)) = Num (Drag.y ev)
  ∧ GraphNode.x (snd (Drag.onDrag ev st)) = GraphNode.x (snd st)
  ∧ GraphNode.y (snd (Drag.onDrag ev st)) = GraphNode.y (snd st)
  ∧ GraphNode.id (snd (Drag.onDrag ev st)) = GraphNode.id (snd st)
  ∧ fst (Drag.onDrag ev st) = fst st.
Proof. by destruct st. Qed.

(** X10.  While a node is dragged its override follows the pointer: after the
    start of a gesture and any moves, [fx] and [fy] hold the position of
    the last move, or the node's own position when the pointer has not
    moved yet; the handlers never write the node's [x] and [y]. *)
Theorem drag_tracks_pointer
    (startEv : Drag.event) (moves : list Drag.event) (st : Drag.state) :
  GraphNode.fx (snd (foldl (λ st ev, Drag.onDrag ev st) (Drag.onStart startEv st) moves))
  = match last moves with
    | Some ev => Num (Drag.x ev)
    | None => Drag.ofOptional (GraphNode.x (snd st))
    end
  ∧ GraphNode.fy (snd (foldl (λ st ev, Drag.onDrag ev st) (Drag.onStart startEv st) moves))
    = match last moves with
      | Some ev => Num (Drag.y ev)
      | None => Drag.ofOptional (GraphNode.y (snd st))
      end
  ∧ GraphNode.x (snd (foldl (λ st ev, Drag.onDrag ev st) (Drag.onStart startEv st) moves))
    = GraphNode.x (snd st)
  ∧ GraphNode.y (snd (foldl (λ st ev, Drag.onDrag ev st) (Drag.onStart startEv st) moves))
    = GraphNode.y (snd st).
Proof.
  induction moves as [|ev moves IH] using rev_ind.
  - by destruct st.
  - rewrite foldl_app, last_snoc. cbn [foldl].
    destruct (onDrag_fixes ev
      (foldl (λ st ev, Drag.onDrag ev st) (Drag.onStart startEv st) moves))
      as (-> & -> & -> & -> & _).
    destruct IH as (_ & _ & -> & ->). done.
Qed.

Lemma foldl_onDrag_simulation (moves : list Drag.event) (st : Drag.state) :
  fst (foldl (λ st ev, Drag.onDrag ev st) st moves) = fst st.
Proof.
  revert st. induction moves as [|ev moves IH]; intros st; [done|].
  simpl. rewrite IH. by destruct st.
Qed.

(** X11.  A gesture that starts and ends with no other gesture active restarts
    the simulation and leaves the target of [alpha] at 0; a gesture that
    starts and ends while another one is active leaves the simulation as
    it was. *)
Theorem gesture_simulation
    (startEv : Drag.event) (moves : list Drag.event) (endEv : Drag.event)
    (st : Drag.state) :
  (Drag.active startEv = 0%nat → Drag.active endEv = 0%nat →
   fst (Drag.gesture startEv moves endEv st)
   = {| Drag.alphaTarget := 0; Drag.running := true |})
  ∧ (Drag.active startEv ≠ 0%nat → Drag.active endEv ≠ 0%nat →
     fst (Drag.gesture startEv moves endEv st) = fst st).
Proof.
  unfold Drag.gesture.
  assert (Hend : ∀ s, fst (Drag.onEnd endEv s)
            = if (Drag.active endEv =? 0)%nat
              then {| Drag.alphaTarget := 0; Drag.running := Drag.running (fst s) |}
              else fst s) by (intros [sim d]; simpl; by destruct (_ =? _)%nat).
  assert (Hstart : fst (Drag.onStart startEv st)
            = if (Drag.active startEv =? 0)%nat
              then {| Drag.alphaTarget := 0x1.3333333333333p-2; Drag.running := true |}
              else fst st) by (destruct st; simpl; by destruct (_ =? _)%nat).
  rewrite Hend, foldl_onDrag_simulation, Hstart. split.
  - intros -> ->. done.
  - intros H1%Nat.eqb_neq H2%Nat.eqb_neq. by rewrite H1, H2.
Qed.

(** ** Editing, creating and deleting notes *)

Lemma titleToId_cons (n : Note.t) (notes : list Note.t) (key : string) :
  titleToId (n :: notes) !! key
  = match titleToId notes !! key with
    | Some i => Some i
    | None => if decide (Str.toLowerCase (Note.title n) = key) then Some (Note.id n) else None
    end.
Proof.
  rewrite !titleToId_lookup. simpl.
  destruct (lastWithTitle key notes); [done|]. by case_decide.
Qed.

Lemma titleToId_same_titles (notes notes' : list Note.t) :
  (λ n, (Note.title n, Note.id n)) <$> notes' = (λ n, (Note.title n, Note.id n)) <$> notes →
  titleToIdMap notes' = titleToIdMap notes.
Proof.
  unfold titleToIdMap. generalize (∅ : gmap string string).
  revert notes'. induction notes as [|n notes IH]; intros [|n' notes'] m Heq; try done.
  simpl in *. inversion Heq as [[Ht Hi Htail]]. by apply IH.
Qed.

Lemma updateNote_fields (now : float) (u : Updates.t) (n : Note.t) :
  Note.id (App.updateNote now u n) = default (Note.id n) (Updates.id u)
  ∧ Note.title (App.updateNote now u n) = default (Note.title n) (Updates.title u)
  ∧ Note.content (App.updateNote now u n) = default (Note.content n) (Updates.content u)
  ∧ Note.folder (App.updateNote now u n) = default (Note.folder n) (Updates.folder u)
  ∧ Note.updatedAt (App.updateNote now u n) = now.
Proof. unfold App.updateNote. by destruct (Updates.content u). Qed.

(** X12.  An update touches only the notes with the given identity and keeps
    the tags in step with the content: the other notes stay where they
    are, unchanged; an updated note gets the new time stamp; and when the
    update carries a content, the tags of the updated note are the tags
    extracted from its new content, whatever tags the update carried. *)
Theorem update_note_frame (now : float) (id : string) (u : Updates.t) (st : App.state) :
  length (App.notes (App.handleUpdateNote now id u st)) = length (App.notes st)
  ∧ (∀ i n, App.notes st !! i = Some n →
       App.notes (App.handleUpdateNote now id u st) !! i
       = Some (if decide (Note.id n ≠ id) then n else App.updateNote now u n))
  ∧ (∀ n, Note.updatedAt (App.updateNote now u n) = now)
  ∧ (∀ n c, Updates.content u = Some c →
       Note.content (App.updateNote now u n) = c
       ∧ Note.tags (App.updateNote now u n)
         = extractTags (Note.content (App.updateNote now u n)))
  ∧ App.folders (App.handleUpdateNote now id u st) = App.folders st
  ∧ App.activeNoteId (App.handleUpdateNote now id u st) = App.activeNoteId st.
Proof.
  split; [simpl; by rewrite length_fmap|]. split.
  - intros i n Hi. simpl. by rewrite list_lookup_fmap, Hi.
  - split; [intros n; apply updateNote_fields|]. split; [|done].
    intros n c Hc. unfold App.updateNote. by rewrite Hc.
Qed.

Lemma filter_bind_links (P : GraphLink.t → Prop) `{!∀ l, Decision (P l)}
    (f : Note.t → list GraphLink.t) (notes : list Note.t) :
  filter P (notes ≫= f) = notes ≫= (λ n, filter P (f n)).
Proof.
  induction notes as [|n notes IH]; [done|].
  by rewrite !bind_cons, filter_app, IH.
Qed.

Lemma noteLinks_source (index : gmap string string) (n : Note.t) :
  Forall (λ l, GraphLink.source l = Note.id n) (noteLinks index n).
Proof.
  apply Forall_forall. intros l Hl. unfold noteLinks in Hl.
  apply list_elem_of_omap in Hl as (t & _ & Ht).
  destruct (resolveTarget index t) as [tid|]; [|done]. simpl in Ht.
  assert (l = GraphLink.mk (Note.id n) tid) as -> by congruence. done.
Qed.

Lemma filter_all_out (P : GraphLink.t → Prop) `{!∀ l, Decision (P l)}
    (ls : list GraphLink.t) :
  Forall (λ l, ¬ P l) ls → filter P ls = [].
Proof.
  induction 1 as [|l ls Hl _ IH]; [done|]. by rewrite filter_cons_False.
Qed.

(** X13.  Editing a note without touching its title or identity changes no
    link of any other note: the links that do not start at the edited
    identity are the same before and after the update, in the same
    order. *)
Theorem update_keeps_other_links
    (now : float) (id : string) (u : Updates.t) (st : App.state) :
  Updates.id u = None → Updates.title u = None →
  filter (λ l, GraphLink.source l ≠ id)
         (links (App.notes (App.handleUpdateNote now id u st)))
  = filter (λ l, GraphLink.source l ≠ id) (links (App.notes st))
  ∧ Note.id <$> App.notes (App.handleUpdateNote now id u st) = Note.id <$> App.notes st.
Proof.
  intros Hid Htitle.
  assert (Hkeep : ∀ n, Note.id (App.updateNote now u n) = Note.id n
                       ∧ Note.title (App.updateNote now u n) = Note.title n).
  { intros n. destruct (updateNote_fields now u n) as (-> & -> & _).
    by rewrite Hid, Htitle. }
  set (upd := λ n, if decide (Note.id n ≠ id) then n else App.updateNote now u n).
  assert (Hupd : ∀ n, Note.id (upd n) = Note.id n ∧ Note.title (upd n) = Note.title n).
  { intros n. unfold upd. case_decide; [done|apply Hkeep]. }
  change (App.notes (App.handleUpdateNote now id u st)) with (upd <$> App.notes st).
  assert (Hindex : titleToIdMap (upd <$> App.notes st) = titleToIdMap (App.notes st)).
  { apply titleToId_same_titles. rewrite <- list_fmap_compose.
    apply list_fmap_ext. intros i n _. simpl. by destruct (Hupd n) as [-> ->]. }
  split.
  - rewrite !links_concat, Hindex, !filter_bind_links.
    clear Hindex. generalize (titleToIdMap (App.notes st)). intros index.
    induction (App.notes st) as [|n notes IH]; [done|].
    rewrite fmap_cons, !bind_cons, IH. f_equal.
    unfold upd. case_decide as Hn; [done|].
    assert (Hout : ∀ n', Note.id n' = id →
              filter (λ l, GraphLink.source l ≠ id) (noteLinks index n') = []).
    { intros n' Hn'. apply filter_all_out.
      eapply Forall_impl; [apply noteLinks_source|]. simpl. intros l ->. tauto. }
    rewrite (Hout n Hn), (Hout (App.updateNote now u n)); [done|].
    by destruct (Hkeep n) as [-> _].
  - rewrite <- list_fmap_compose. apply list_fmap_ext. intros i n _. simpl.
    by destruct (Hupd n) as [-> _].
Qed.

Lemma update_keeps_other_links_witness :
  links [cycA; cycB; cycC]
    = [GraphLink.mk "a" "b"; GraphLink.mk "b" "c"; GraphLink.mk "c" "a"]
  ∧ filter (λ l, GraphLink.source l ≠ "b")
      (links (App.notes (App.handleUpdateNote 0 "b" (contentOnly "now [[alpha]] #x")
                 (App.Build_state [cycA; cycB; cycC] [] None "" graph))))
    = filter (λ l, GraphLink.source l ≠ "b") (links [cycA; cycB; cycC]).
Proof.
  split; [vm_compute; reflexivity|].
  exact (proj1 (update_keeps_other_links 0 "b" (contentOnly "now [[alpha]] #x")
                  (App.Build_state [cycA; cycB; cycC] [] None "" graph) eq_refl eq_refl)).
Defined.

Lemma find_some_elem (P : Note.t → bool) (l : list Note.t) (n : Note.t) :
  List.find P l = Some n → n ∈ l ∧ P n = true.
Proof.
  induction l as [|m l IH]; simpl; [done|].
  destruct (P m) eqn:E.
  - intros [= ->]. split; [by left|done].
  - intros H. destruct (IH H). split; [by right|done].
Qed.

Lemma find_is_Some (P : Note.t → bool) (l : list Note.t) (n : Note.t) :
  n ∈ l → P n = true → is_Some (List.find P l).
Proof.
  induction l as [|m l IH]; intros Hn HP; [by apply elem_of_nil in Hn|].
  simpl. destruct (P m) eqn:E; [by eexists|].
  apply elem_of_cons in Hn as [->|Hn]; [congruence|by apply IH].
Qed.

Lemma activeNote_delete (id : string) (st : App.state) :
  App.activeNote (App.handleDeleteNote true id st)
  = (if decide (App.activeNoteId st = Some id) then None else App.activeNote st).
Proof.
  unfold App.handleDeleteNote, App.activeNote.
  case_decide as Ha; simpl.
  - induction (filter _ _) as [|n ns IH]; [done|]. exact IH.
  - induction (App.notes st) as [|n ns IH]; [done|].
    rewrite filter_cons. case_decide as Hn.
    + simpl. by rewrite IH.
    + simpl. rewrite IH.
      rewrite bool_decide_eq_false_2; [done|]. intros H.
      apply Ha. by rewrite <- H, Hn.
Qed.

(** X14.  A confirmed deletion removes every note with the identity, and with
    them every trace in the graph: the other notes stay in their order,
    no node, no link end and no adjacency entry carries the identity any
    more, and the deleted note is not the active one.  A deletion that is
    not confirmed changes nothing. *)
Theorem delete_note_clears_graph (id : string) (st : App.state) :
  App.notes (App.handleDeleteNote true id st)
    = filter (λ n, Note.id n ≠ id) (App.notes st)
  ∧ (id ∉ (GraphNode.id <$> nodes (App.notes (App.handleDeleteNote true id st))))
  ∧ Forall (λ l, GraphLink.source l ≠ id ∧ GraphLink.target l ≠ id)
           (links (App.notes (App.handleDeleteNote true id st)))
  ∧ connectionMap (App.notes (App.handleDeleteNote true id st)) !! id = None
  ∧ App.activeNoteId (App.handleDeleteNote true id st) ≠ Some id
  ∧ App.activeNote (App.handleDeleteNote true id st)
    = (if decide (App.activeNoteId st = Some id) then None else App.activeNote st)
  ∧ App.handleDeleteNote false id st = st.
Proof.
  assert (Hnotes : App.notes (App.handleDeleteNote true id st)
                   = filter (λ n, Note.id n ≠ id) (App.notes st)).
  { unfold App.handleDeleteNote. by case_decide. }
  assert (Hids : id ∉ (Note.id <$> filter (λ n, Note.id n ≠ id) (App.notes st))).
  { intros (n & -> & Hn)%list_elem_of_fmap.
    apply list_elem_of_filter in Hn as [Hn _]. done. }
  rewrite Hnotes. split; [done|]. split; [by rewrite nodes_ids|].
  assert (Hlinks : Forall (λ l, GraphLink.source l ≠ id ∧ GraphLink.target l ≠ id)
             (links (filter (λ n, Note.id n ≠ id) (App.notes st)))).
  { apply Forall_forall. intros l Hl.
    destruct (link_endpoints_are_notes _ _ Hl) as [Hs Ht].
    split; intros <-; by apply Hids. }
  split; [done|]. split.
  - destruct (connectionMap _ !! id) as [s|] eqn:E; [|done].
    destruct (connectionMap_entries _ _ _ E) as (_ & Hkey & _). done.
  - split; [|split; [|done]].
    + unfold App.handleDeleteNote. case_decide as Ha; simpl; [done|exact Ha].
    + apply activeNote_delete.
Qed.

(** X15.  A new note comes first, is the active note even when an older note
    has the same identity, has no outgoing link, and never takes a link
    away from an older note: every reference that resolved before the
    creation resolves to the same identity after it, so every link of the
    graph is still there. *)
Theorem create_note_keeps_links
    (stamp : string) (created updated : float) (st : App.state) :
  App.activeNote (App.handleCreateNote stamp created updated st)
    = Some (Note.mk stamp "Untitled Note" "" "Inbox" created updated [])
  ∧ App.viewMode (App.handleCreateNote stamp created updated st) = editor
  ∧ (∀ r target,
       resolveTarget (titleToIdMap (App.notes st)) r = Some target →
       resolveTarget (titleToIdMap (App.notes (App.handleCreateNote stamp created updated st))) r
       = Some target)
  ∧ (∀ l, l ∈ links (App.notes st) →
          l ∈ links (App.notes (App.handleCreateNote stamp created updated st)))
  ∧ (∀ l, l ∈ links (App.notes (App.handleCreateNote stamp created updated st)) →
          GraphLink.source l ∈ Note.id <$> App.notes st).
Proof.
  set (new := Note.mk stamp "Untitled Note" "" "Inbox" created updated []).
  assert (Hres : ∀ r target,
            resolveTarget (titleToIdMap (App.notes st)) r = Some target →
            resolveTarget (titleToIdMap (new :: App.notes st)) r = Some target).
  { intros r target [Hlook Hne]%resolveTarget_Some. apply resolveTarget_Some.
    split; [|done]. change (titleToIdMap ?l) with (titleToId l) in *.
    by rewrite titleToId_cons, Hlook. }
  split; [|split; [done|split; [exact Hres|split]]].
  - unfold App.activeNote. simpl. by rewrite bool_decide_eq_true_2.
  - intros l (n & r & Hn & Hr & Hs & Ht)%elem_of_links.
    apply elem_of_links. exists n, r. split; [by right|]. split; [done|].
    split; [done|]. by apply Hres.
  - intros l (n & r & Hn & Hr & Hs & _)%elem_of_links.
    change (App.notes (App.handleCreateNote stamp created updated st))
      with (new :: App.notes st) in Hn.
    apply elem_of_cons in Hn as [-> | Hn].
    + simpl in Hr. vm_compute in Hr. by apply elem_of_nil in Hr.
    + rewrite Hs. by apply list_elem_of_fmap_2.
Qed.

(** X16.  A double click on a node of the graph always opens a note: the
    editor becomes the view and the active note is a note with the
    identity of the node (the first one in the list, should several share
    it). *)
Theorem open_node_finds_note (st : App.state) (d : GraphNode.t) :
  d ∈ nodes (App.notes st) →
  App.viewMode (App.openNote (GraphNode.id d) st) = editor
  ∧ ∃ n, App.activeNote (App.openNote (GraphNode.id d) st) = Some n
         ∧ n ∈ App.notes st ∧ Note.id n = GraphNode.id d.
Proof.
  intros (m & -> & Hm)%list_elem_of_fmap. split; [done|].
  unfold App.activeNote. simpl.
  destruct (find_is_Some (λ n, bool_decide (Some (Note.id n) = Some (Note.id m)))
              (App.notes st) m Hm) as [n Hn]; [by apply bool_decide_eq_true_2|].
  exists n. split; [done|].
  apply find_some_elem in Hn as [Hin Heq]. split; [done|].
  apply bool_decide_eq_true in Heq. congruence.
Qed.

Lemma open_node_finds_note_witness :
  App.activeNote (App.openNote "b" (App.Build_state [cycA; cycB; cycC] [] None "" graph))
  = Some cycB
  ∧ ∃ n, App.activeNote
           (App.openNote (GraphNode.id (nodeOf cycB))
              (App.Build_state [cycA; cycB; cycC] [] None "" graph)) = Some n
         ∧ n ∈ [cycA; cycB; cycC] ∧ Note.id n = GraphNode.id (nodeOf cycB).
Proof.
  split; [reflexivity|].
  refine (proj2 (open_node_finds_note
    (App.Build_state [cycA; cycB; cycC] [] None "" graph) (nodeOf cycB) _)).
  right. left.
Defined.

(** ** Import *)

Lemma orderedSet_add_all (acc xs : list string) :
  (NoDup acc → NoDup (foldl OrderedSet.add acc xs))
  ∧ (∀ x, x ∈ foldl OrderedSet.add acc xs ↔ x ∈ acc ∨ x ∈ xs)
  ∧ acc `prefix_of` foldl OrderedSet.add acc xs.
Proof.
  revert acc. induction xs as [|y xs IH]; intros acc; simpl.
  - split; [done|]. split; [|done]. intros x. rewrite elem_of_nil. tauto.
  - destruct (IH (OrderedSet.add acc y)) as (Hnd & Hin & Hpre).
    unfold OrderedSet.add in *. case_decide as Hy.
    + split; [done|]. split; [|done]. intros x. rewrite Hin, elem_of_cons.
      split; [tauto|]. intros [?|[->|?]]; tauto.
    + split.
      * intros Hacc. apply Hnd, NoDup_app. split; [done|]. split.
        -- intros x Hx ->%list_elem_of_singleton. done.
        -- apply NoDup_singleton.
      * split.
        -- intros x. rewrite Hin, elem_of_app, list_elem_of_singleton, elem_of_cons. tauto.
        -- etrans; [|exact Hpre]. by apply prefix_app_r.
Qed.

Lemma orderedSet_add_fresh (acc xs : list string) :
  NoDup (acc ++ xs) → foldl OrderedSet.add acc xs = acc ++ xs.
Proof.
  revert acc. induction xs as [|y xs IH]; intros acc Hnd; simpl.
  - by rewrite app_nil_r.
  - unfold OrderedSet.add at 2.
    apply NoDup_app in Hnd as Hparts. destruct Hparts as (_ & Hdisj & _).
    rewrite decide_False by (intros Hy; apply (Hdisj y Hy); by left).
    rewrite IH; [by rewrite <- app_assoc|]. by rewrite <- app_assoc.
Qed.

Lemma orderedSet_add_known (acc xs : list string) :
  Forall (λ x, x ∈ acc) xs → foldl OrderedSet.add acc xs = acc.
Proof.
  induction 1 as [|y xs Hy _ IH]; [done|].
  simpl. unfold OrderedSet.add at 2. by rewrite decide_True.
Qed.

(** X17.  Importing folders merges without repeating: the merged list has no
    duplicate, holds exactly the folders of the application and of the
    file, starts with the folders of the application when these were
    distinct, and importing the same file again changes nothing. *)
Theorem import_folders (folders dataFolders : list string) :
  NoDup (App.mergeFolders folders dataFolders)
  ∧ (∀ x, x ∈ App.mergeFolders folders dataFolders ↔ x ∈ folders ∨ x ∈ dataFolders)
  ∧ (NoDup folders → folders `prefix_of` App.mergeFolders folders dataFolders)
  ∧ App.mergeFolders (App.mergeFolders folders dataFolders) dataFolders
    = App.mergeFolders folders dataFolders.
Proof.
  unfold App.mergeFolders, OrderedSet.ofList.
  destruct (orderedSet_add_all [] (folders ++ dataFolders)) as (Hnd & Hin & _).
  specialize (Hnd (NoDup_nil_2)).
  split; [done|]. split.
  - intros x. rewrite Hin, elem_of_nil, elem_of_app. tauto.
  - split.
    + intros Hf. rewrite foldl_app.
      rewrite (orderedSet_add_fresh [] folders) by done.
      apply (orderedSet_add_all folders dataFolders).
    + set (merged := foldl OrderedSet.add [] (folders ++ dataFolders)) in *.
      rewrite foldl_app, (orderedSet_add_fresh [] merged) by done.
      apply orderedSet_add_known, Forall_forall. intros x Hx.
      apply Hin. right. apply elem_of_app. by right.
Qed.

Lemma set_keys m k v :
  (OrderedMap.set m k v).*1 = if decide (k ∈ m.*1) then m.*1 else m.*1 ++ [k].
Proof.
  induction m as [|[k' v'] m IH]; [done|].
  cbn [OrderedMap.set]. rewrite (fmap_cons fst (k', v') m). cbn [fst].
  destruct (decide (k' = k)) as [->|Hk].
  - rewrite fmap_cons. cbn [fst]. by rewrite decide_True by by left.
  - rewrite fmap_cons, IH. cbn [fst].
    destruct (decide (k ∈ m.*1)) as [Hin|Hin].
    + by rewrite decide_True by by right.
    + rewrite decide_False; [done|].
      intros [->|?]%elem_of_cons; done.
Qed.

Lemma set_fresh m k v : k ∉ m.*1 → OrderedMap.set m k v = m ++ [(k, v)].
Proof.
  induction m as [|[k' v'] m IH]; simpl; [done|].
  intros [Hk Hm]%not_elem_of_cons.
  rewrite decide_False by done. by rewrite IH.
Qed.

Lemma assoc_set m k v k' :
  assoc (OrderedMap.set m k v) k' = if decide (k = k') then Some v else assoc m k'.
Proof.
  induction m as [|[k0 v0] m IH]; simpl; [done|].
  destruct (decide (k0 = k)) as [->|Hk0]; simpl.
  - by destruct (decide (k = k')).
  - rewrite IH. destruct (decide (k = k')) as [->|]; [|done].
    by rewrite decide_False.
Qed.

Lemma set_keyed m n : keyed m → keyed (OrderedMap.set m (Note.id n) n).
Proof.
  unfold keyed. induction 1 as [|[k v] m Hkv Hm IH]; simpl.
  - by repeat constructor.
  - case_decide; constructor; done.
Qed.

Lemma assoc_None m k : k ∉ m.*1 → assoc m k = None.
Proof.
  induction m as [|[k' v'] m IH]; simpl; [done|].
  intros [Hk Hm]%not_elem_of_cons. rewrite decide_False by done. by apply IH.
Qed.

Lemma assoc_elem m k v : NoDup m.*1 → (k, v) ∈ m ↔ assoc m k = Some v.
Proof.
  induction m as [|[k' v'] m IH]; simpl; intros Hnd.
  - split; [by intros ?%elem_of_nil|done].
  - apply NoDup_cons in Hnd as [Hk' Hnd]. rewrite elem_of_cons.
    destruct (decide (k' = k)) as [->|Hne].
    + split.
      * intros [[= ->]|Hin]; [done|].
        destruct Hk'. apply list_elem_of_fmap. by exists (k, v).
      * intros [= ->]. by left.
    + rewrite <- (IH Hnd). split; [|by right].
      intros [[= -> ->]|Hin]; done.
Qed.

Lemma ordered_map_ext m1 m2 :
  NoDup m1.*1 → m1.*1 = m2.*1 → (∀ k, assoc m1 k = assoc m2 k) → m1 = m2.
Proof.
  revert m2. induction m1 as [|[k1 v1] m1 IH]; intros [|[k2 v2] m2] Hnd Hkeys Hassoc;
    try done.
  rewrite !fmap_cons in Hkeys. cbn [fst] in Hkeys.
  assert (k2 = k1) as -> by congruence.
  assert (Htail : m1.*1 = m2.*1) by congruence.
  rewrite fmap_cons in Hnd. cbn [fst] in Hnd.
  apply NoDup_cons in Hnd as [Hk1 Hnd].
  assert (v2 = v1) as ->.
  { specialize (Hassoc k1). cbn [assoc] in Hassoc.
    rewrite !decide_True in Hassoc by done. congruence. }
  f_equal. apply IH; [done..|].
  intros k. specialize (Hassoc k). cbn [assoc] in Hassoc.
  destruct (decide (k1 = k)) as [<-|]; [|done].
  rewrite (assoc_None m1 k1 Hk1), (assoc_None m2 k1); [done|].
  by rewrite <- Htail.
Qed.

Lemma setAll_facts m ns :
  (NoDup m.*1 → NoDup (setAll m ns).*1)
  ∧ (keyed m → keyed (setAll m ns))
  ∧ (∀ k, k ∈ (setAll m ns).*1 ↔ k ∈ m.*1 ∨ k ∈ Note.id <$> ns)
  ∧ (∀ k, assoc (setAll m ns) k
          = match lastWithId k ns with Some n => Some n | None => assoc m k end)
  ∧ (Forall (λ n, Note.id n ∈ m.*1) ns → (setAll m ns).*1 = m.*1).
Proof.
  revert m. induction ns as [|n ns IH]; intros m.
  - simpl. split_and!; try done. intros k. rewrite elem_of_nil. tauto.
  - destruct (IH (OrderedMap.set m (Note.id n) n)) as (Hnd & Hkeyed & Hin & Hassoc & Hsame).
    change (setAll m (n :: ns)) with (setAll (OrderedMap.set m (Note.id n) n) ns).
    split_and!.
    + intros Hm. apply Hnd. rewrite set_keys. case_decide as Hk; [done|].
      apply NoDup_app. split; [done|]. split; [|apply NoDup_singleton].
      intros x Hx ->%list_elem_of_singleton. done.
    + intros Hm. by apply Hkeyed, set_keyed.
    + intros k. rewrite Hin, set_keys, fmap_cons, elem_of_cons.
      case_decide as Hk.
      * split; [tauto|]. intros [?|[->|?]]; tauto.
      * rewrite elem_of_app, list_elem_of_singleton. tauto.
    + intros k. rewrite Hassoc, assoc_set. simpl.
      destruct (lastWithId k ns); [done|]. by case_decide.
    + intros [Hn Hns]%Forall_cons.
      assert (Hset : (OrderedMap.set m (Note.id n) n).*1 = m.*1).
      { rewrite set_keys. by rewrite decide_True. }
      rewrite Hsame; [done|]. by rewrite Hset.
Qed.

Lemma setAll_values m1 m2 :
  keyed m2 → NoDup (m1.*1 ++ m2.*1) → setAll m1 (OrderedMap.values m2) = m1 ++ m2.
Proof.
  revert m1. induction m2 as [|[k v] m2 IH]; intros m1 Hkeyed Hnd.
  - simpl. by rewrite app_nil_r.
  - apply Forall_cons in Hkeyed as [Hkv Hkeyed]. simpl in Hkv, Hnd.
    change (setAll m1 (OrderedMap.values ((k, v) :: m2)))
      with (setAll (OrderedMap.set m1 (Note.id v) v) (OrderedMap.values m2)).
    rewrite Hkv, set_fresh.
    + rewrite IH; [by rewrite <- app_assoc|done|].
      by rewrite fmap_app, <- app_assoc.
    + apply NoDup_app in Hnd as (_ & Hdisj & _). intros Hk.
      apply (Hdisj k Hk). by left.
Qed.

Lemma lastWithId_app k a b :
  lastWithId k (a ++ b)
  = match lastWithId k b with Some n => Some n | None => lastWithId k a end.
Proof.
  induction a as [|n a IH]; simpl.
  - by destruct (lastWithId k b).
  - rewrite IH. by destruct (lastWithId k b).
Qed.

Lemma lastWithId_Some k ns n : lastWithId k ns = Some n → Note.id n = k.
Proof.
  induction ns as [|m ns IH]; simpl; [done|].
  destruct (lastWithId k ns); [by intros [= ->]; apply IH|].
  case_decide; [|done]. by intros [= ->].
Qed.

(** X18.  Importing notes merges by identity: the merged list has one note per
    identity, its identities are those of the application and of the
    file, the note kept for an identity is the later one, the file after
    the application, and importing the same file again changes
    nothing. *)
Theorem import_notes (notes dataNotes : list Note.t) :
  NoDup (Note.id <$> App.mergeNotes notes dataNotes)
  ∧ (∀ i, i ∈ Note.id <$> App.mergeNotes notes dataNotes
          ↔ i ∈ Note.id <$> notes ∨ i ∈ Note.id <$> dataNotes)
  ∧ (∀ n, n ∈ App.mergeNotes notes dataNotes
          ↔ lastWithId (Note.id n) (notes ++ dataNotes) = Some n)
  ∧ App.mergeNotes (App.mergeNotes notes dataNotes) dataNotes
    = App.mergeNotes notes dataNotes.
Proof.
  change (App.mergeNotes notes dataNotes)
    with (OrderedMap.values (setAll (setAll [] notes) dataNotes)).
  destruct (setAll_facts [] notes) as (Hnd0 & Hkeyed0 & Hin0 & Hassoc0 & _).
  destruct (setAll_facts (setAll [] notes) dataNotes)
    as (Hnd & Hkeyed & Hin & Hassoc & Hsame).
  specialize (Hnd0 (NoDup_nil_2)). specialize (Hkeyed0 (Forall_nil_2 _)).
  specialize (Hnd Hnd0). specialize (Hkeyed Hkeyed0).
  set (merged := setAll (setAll [] notes) dataNotes) in *.
  assert (Hids : Note.id <$> OrderedMap.values merged = merged.*1).
  { unfold OrderedMap.values. rewrite <- list_fmap_compose.
    apply list_fmap_ext. intros i kv Hkv. simpl.
    eapply Forall_lookup_1 in Hkeyed; [|exact Hkv]. done. }
  assert (Hlast : ∀ k, assoc merged k = lastWithId k (notes ++ dataNotes)).
  { intros k. rewrite Hassoc, Hassoc0, lastWithId_app. simpl.
    destruct (lastWithId k dataNotes); [done|]. by destruct (lastWithId k notes). }
  split_and!.
  - by rewrite Hids.
  - intros i. rewrite Hids, Hin, Hin0, elem_of_nil. tauto.
  - intros n. rewrite <- Hlast, <- (assoc_elem merged _ _ Hnd).
    unfold OrderedMap.values. rewrite list_elem_of_fmap. split.
    + intros ([k v] & -> & Hkv). simpl.
      eapply Forall_forall in Hkeyed; [|exact Hkv]. simpl in Hkeyed. by rewrite Hkeyed.
    + intros Hkv. by exists (Note.id n, n).
  - change (OrderedMap.values (setAll (setAll [] (OrderedMap.values merged)) dataNotes)
            = OrderedMap.values merged).
    rewrite (setAll_values [] merged Hkeyed) by done. simpl.
    f_equal. destruct (setAll_facts merged dataNotes) as (_ & _ & _ & Hassoc2 & Hsame2).
    apply ordered_map_ext.
    + rewrite Hsame2; [done|]. apply Forall_forall. intros n Hn.
      apply Hin. right. by apply list_elem_of_fmap_2.
    + apply Hsame2. apply Forall_forall. intros n Hn.
      apply Hin. right. by apply list_elem_of_fmap_2.
    + intros k. rewrite Hassoc2, Hassoc. by destruct (lastWithId k dataNotes).
Qed.

(** ** Folders, search and the file tree *)

Lemma trimStart_head (s : string) :
  JsString.trimStart s = ""
  ∨ ∃ c t, JsString.trimStart s = String c t ∧ JsString.isWhiteSpace c = false.
Proof.
  unfold JsString.trimStart. induction s as [|c s IH]; [by left|].
  simpl. destruct (JsString.isWhiteSpace c) eqn:E; [exact IH|].
  right. by exists c, s.
Qed.

Lemma trimEnd_head (c : ascii) (s : string) :
  JsString.trimEnd (String c s) = ""
  ∨ ∃ t, JsString.trimEnd (String c s) = String c t.
Proof.
  cbn [JsString.trimEnd]. destruct (JsString.trimEnd s) as [|x t].
  - destruct (JsString.isWhiteSpace c); [by left|right; by eexists].
  - right. by eexists.
Qed.

Lemma trimEnd_idempotent (s : string) :
  JsString.trimEnd (JsString.trimEnd s) = JsString.trimEnd s.
Proof.
  induction s as [|c s IH]; [done|].
  cbn [JsString.trimEnd]. destruct (JsString.trimEnd s) as [|x t] eqn:E.
  - destruct (JsString.isWhiteSpace c) eqn:Hc; [done|].
    cbn [JsString.trimEnd]. by rewrite Hc.
  - cbn [JsString.trimEnd] in *. by rewrite IH.
Qed.

Lemma trim_idempotent (s : string) : JsString.trim (JsString.trim s) = JsString.trim s.
Proof.
  unfold JsString.trim.
  assert (Hid : JsString.trimStart (JsString.trimEnd (JsString.trimStart s))
                = JsString.trimEnd (JsString.trimStart s)).
  { destruct (trimStart_head s) as [-> | (c & t & -> & Hc)]; [done|].
    destruct (trimEnd_head c t) as [-> | (t' & ->)]; [done|].
    unfold JsString.trimStart. simpl. by rewrite Hc. }
  by rewrite Hid, trimEnd_idempotent.
Qed.

(** X19.  Creating a folder keeps the folder list clean: the folders that were
    there stay, in their order; a list without duplicates stays without
    duplicates; whatever is added is non-empty and carries no white space
    around it; and the notes are not touched. *)
Theorem create_folder_clean (name : option string) (st : App.state) :
  (NoDup (App.folders st) → NoDup (App.folders (App.handleCreateFolder name st)))
  ∧ App.folders st `prefix_of` App.folders (App.handleCreateFolder name st)
  ∧ (∀ x, x ∈ App.folders (App.handleCreateFolder name st) →
          x ∈ App.folders st ∨ (x ≠ "" ∧ JsString.trim x = x))
  ∧ App.notes (App.handleCreateFolder name st) = App.notes st.
Proof.
  unfold App.handleCreateFolder. destruct name as [name|]; [|by split_and!; auto].
  destruct (truthy name && negb (String.eqb (JsString.trim name) "")) eqn:E;
    [|by split_and!; auto].
  case_decide as Hin; [by split_and!; auto|].
  apply andb_true_iff in E as [_ Htrim]. apply negb_true_iff, String.eqb_neq in Htrim.
  simpl. split_and!.
  - intros Hnd. apply NoDup_app. split; [done|]. split; [|apply NoDup_singleton].
    intros x Hx ->%list_elem_of_singleton. done.
  - by apply prefix_app_r.
  - intros x [Hx | ->%list_elem_of_singleton]%elem_of_app; [by left|].
    right. split; [done|apply trim_idempotent].
  - done.
Qed.

Lemma contains_prefix (p s r : string) :
  Str.stripPrefix p s = Some r → contains p s = true.
Proof. intros H. destruct s; cbn [contains]; by rewrite H. Qed.

(** [contains p s] holds exactly when [s] is some text, then [p], then
    some text. *)
Lemma contains_spec (p s : string) :
  contains p s = true ↔ ∃ u v, s = u +:+ p +:+ v.
Proof.
  split.
  - induction s as [|c s IH]; cbn [contains].
    + destruct (Str.stripPrefix p "") as [r|] eqn:E; [|done].
      intros _. exists "", r. apply stripPrefix_Some in E. by rewrite append_nil_l.
    + destruct (Str.stripPrefix p (String c s)) as [r|] eqn:E.
      * intros _. exists "", r. apply stripPrefix_Some in E. by rewrite append_nil_l.
      * intros (u & v & ->)%IH. exists (String c u), v. by rewrite append_cons.
  - intros (u & v & ->). induction u as [|c u IH].
    + rewrite append_nil_l. apply (contains_prefix _ _ v), stripPrefix_app.
    + rewrite append_cons. cbn [contains]. rewrite IH.
      by destruct (Str.stripPrefix p _).
Qed.

Lemma contains_refl (s : string) : contains s s = true.
Proof. apply contains_spec. exists "", "". by rewrite append_nil_l, append_nil_r. Qed.

Lemma contains_trans (a b c : string) :
  contains a b = true → contains b c = true → contains a c = true.
Proof.
  intros (u & v & ->)%contains_spec (u' & v' & ->)%contains_spec.
  apply contains_spec. exists (u' +:+ u), (v +:+ v'). by rewrite !append_assoc.
Qed.

Lemma filter_sublist_mono (P Q : Note.t → Prop)
    `{!∀ n, Decision (P n)} `{!∀ n, Decision (Q n)} (l : list Note.t) :
  (∀ n, P n → Q n) → filter P l `sublist_of` filter Q l.
Proof.
  intros HPQ. induction l as [|n l IH]; [done|].
  destruct (decide (P n)) as [HP|HP].
  - rewrite (filter_cons_True P) by done.
    rewrite (filter_cons_True Q) by auto. by constructor.
  - rewrite (filter_cons_False P) by done.
    destruct (decide (Q n)).
    + rewrite (filter_cons_True Q) by done. by constructor.
    + by rewrite (filter_cons_False Q).
Qed.

Lemma filter_all_in (P : Note.t → Prop) `{!∀ n, Decision (P n)} (l : list Note.t) :
  Forall P l → filter P l = l.
Proof.
  induction 1 as [|n l Hn _ IH]; [done|]. by rewrite filter_cons_True, IH.
Qed.

(** X20.  The search of the sidebar: an empty query keeps every note; the
    found notes are notes of the list, in their order; the result depends
    on the query only through its lower-case form; a note whose title is
    the query up to case is always found; and a query whose lower-case
    form holds that of an earlier query finds no note that the earlier one
    did not find. *)
Theorem search_case_insensitive (st : App.state) :
  (App.searchQuery st = "" → App.filteredNotes st = App.notes st)
  ∧ App.filteredNotes st `sublist_of` App.notes st
  ∧ (∀ st', App.notes st' = App.notes st →
            Str.toLowerCase (App.searchQuery st') = Str.toLowerCase (App.searchQuery st) →
            App.filteredNotes st' = App.filteredNotes st)
  ∧ (∀ n, n ∈ App.notes st →
          Str.toLowerCase (Note.title n) = Str.toLowerCase (App.searchQuery st) →
          n ∈ App.filteredNotes st)
  ∧ (∀ st', App.notes st' = App.notes st →
            JsString.includes (Str.toLowerCase (App.searchQuery st'))
                              (Str.toLowerCase (App.searchQuery st)) = true →
            App.filteredNotes st' `sublist_of` App.filteredNotes st).
Proof.
  unfold App.filteredNotes. split_and!.
  - intros ->. apply filter_all_in, Forall_forall. intros n _.
    unfold JsString.includes. by destruct (Str.toLowerCase (Note.title n)).
  - apply sublist_filter.
  - intros st' -> ->. done.
  - intros n Hn Heq. apply list_elem_of_filter. split; [|done].
    unfold JsString.includes. rewrite Heq. apply contains_refl.
  - intros st' -> Hinc. apply filter_sublist_mono. intros n Hn.
    unfold JsString.includes in *. by eapply contains_trans.
Qed.

(** X21.  The file tree shows a found note exactly under its folder: the groups
    are the folders, in their order; each group holds the found notes of
    its folder; and a found note whose folder is not in the folder list is
    shown nowhere. *)
Theorem file_tree_groups (st : App.state) :
  (App.fileTree st).*1 = App.folders st
  ∧ Forall (λ g, ∀ n, n ∈ g.2 ↔ n ∈ App.filteredNotes st ∧ Note.folder n = g.1)
           (App.fileTree st)
  ∧ (∀ n, n ∈ mjoin (App.fileTree st).*2
          ↔ n ∈ App.filteredNotes st ∧ Note.folder n ∈ App.folders st).
Proof.
  unfold App.fileTree. split_and!.
  - rewrite <- list_fmap_compose. by apply list_fmap_id.
  - apply Forall_fmap, Forall_forall. intros folder _ n. simpl.
    rewrite list_elem_of_filter. tauto.
  - intros n. rewrite list_elem_of_join. split.
    + intros (g & Hn & Hg). apply list_elem_of_fmap in Hg as ([f ns] & -> & Hg).
      apply list_elem_of_fmap in Hg as (folder & [= -> ->] & Hf). simpl in Hn.
      apply list_elem_of_filter in Hn as [<- Hn]. done.
    + intros [Hn Hf]. exists (filter (λ m, Note.folder m = Note.folder n) (App.filteredNotes st)).
      split; [by apply list_elem_of_filter|].
      apply list_elem_of_fmap.
      exists (Note.folder n, filter (λ m, Note.folder m = Note.folder n) (App.filteredNotes st)).
      split; [done|]. apply list_elem_of_fmap. by exists (Note.folder n).
Qed.

(** ** The canvas board *)

Lemma find_app_l {A : Type} (P : A → bool) (l k : list A) (x : A) :
  List.find P l = Some x → List.find P (l ++ k) = Some x.
Proof.
  induction l as [|y l IH]; simpl; [done|]. destruct (P y); [done|exact IH].
Qed.

Lemma find_app_r {A : Type} (P : A → bool) (l : list A) (x : A) :
  P x = true → is_Some (List.find P (l ++ [x])).
Proof.
  intros Hx. induction l as [|y l IH]; simpl.
  - rewrite Hx. by eexists.
  - destruct (P y); [by eexists|exact IH].
Qed.

Lemma find_None_all {A : Type} (P : A → bool) (l : list A) :
  List.find P l = None → Forall (λ x, P x = false) l.
Proof.
  induction l as [|y l IH]; simpl; [constructor|].
  destruct (P y) eqn:E; [done|]. intros H. constructor; [done|by apply IH].
Qed.

(** X22.  A note has at most one card: adding a note twice is adding it once;
    the cards that were there stay in place; after the addition the note
    has a card; and a canvas on which no two cards show the same note stays
    so. *)
Theorem canvas_add_once
    (randomId randomId' : string) (note : Note.t) (st : CanvasBoard.state) :
  CanvasBoard.addNode randomId' note (CanvasBoard.addNode randomId note st)
    = CanvasBoard.addNode randomId note st
  ∧ CanvasBoard.nodes st `prefix_of` CanvasBoard.nodes (CanvasBoard.addNode randomId note st)
  ∧ Some (Note.id note)
      ∈ CanvasNode.noteId <$> CanvasBoard.nodes (CanvasBoard.addNode randomId note st)
  ∧ (NoDup (omap CanvasNode.noteId (CanvasBoard.nodes st)) →
     NoDup (omap CanvasNode.noteId
              (CanvasBoard.nodes (CanvasBoard.addNode randomId note st)))).
Proof.
  set (P := λ n, bool_decide (CanvasNode.noteId n = Some (Note.id note))).
  unfold CanvasBoard.addNode. fold P.
  destruct (List.find P (CanvasBoard.nodes st)) as [found|] eqn:E.
  - rewrite E. split; [done|]. split; [done|]. split; [|done].
    apply find_some in E as [Hin HP]. apply bool_decide_eq_true in HP.
    apply list_elem_of_fmap. exists found. split; [done|]. by apply list_elem_of_In.
  - simpl. split_and!.
    + match goal with |- context [List.find P (?l ++ [?x])] =>
        destruct (find_app_r P l x) as [y ->]; [by apply bool_decide_eq_true_2|done] end.
    + by apply prefix_app_r.
    + rewrite fmap_app. apply elem_of_app. right. by left.
    + intros Hnd. rewrite omap_app. simpl. apply NoDup_app. split; [done|].
      split; [|apply NoDup_singleton].
      intros x Hx ->%list_elem_of_singleton.
      apply list_elem_of_omap in Hx as (n & Hn & Hid).
      apply find_None_all in E. eapply Forall_forall in E; [|exact Hn].
      unfold P in E. by rewrite bool_decide_eq_true_2 in E.
Qed.

(** X23.  Moving the mouse only moves the card that is being dragged: every
    card keeps its identity, note, text, size and kind; a card with another
    identity keeps its position too; once the button is up, or when the
    drag was started on an identity that no card has, a move changes
    nothing. *)
Theorem canvas_move_frame (clientX clientY : float) (st : CanvasBoard.state) :
  cardFrame <$> CanvasBoard.nodes (CanvasBoard.handleMouseMove clientX clientY st)
    = cardFrame <$> CanvasBoard.nodes st
  ∧ (∀ i n, CanvasBoard.nodes st !! i = Some n →
       Some (CanvasNode.id n) ≠ CanvasBoard.draggingId st →
       CanvasBoard.nodes (CanvasBoard.handleMouseMove clientX clientY st) !! i = Some n)
  ∧ CanvasBoard.handleMouseMove clientX clientY (CanvasBoard.handleMouseUp st)
    = CanvasBoard.handleMouseUp st
  ∧ (∀ x y id, id ∉ (CanvasNode.id <$> CanvasBoard.nodes st) →
       CanvasBoard.handleDragStart x y id st = st).
Proof.
  split_and!.
  - unfold CanvasBoard.handleMouseMove.
    destruct (selection (CanvasBoard.draggingId st)) as [dragging|]; [|done].
    simpl. rewrite <- list_fmap_compose. apply list_fmap_ext.
    intros i n _. simpl. by case_decide.
  - intros i n Hi Hn. unfold CanvasBoard.handleMouseMove.
    destruct (selection (CanvasBoard.draggingId st)) as [dragging|] eqn:E; [|done].
    simpl. rewrite list_lookup_fmap, Hi. simpl.
    rewrite decide_True; [done|]. intros Heq. apply Hn. rewrite Heq.
    unfold selection in E. destruct (CanvasBoard.draggingId st) as [s|]; [|done].
    destruct (truthy s); congruence.
  - done.
  - intros x y id Hid. unfold CanvasBoard.handleDragStart.
    destruct (List.find _ _) as [node|] eqn:E; [|done].
    apply find_some in E as [Hin HP]. apply bool_decide_eq_true in HP.
    destruct Hid. apply list_elem_of_fmap. exists node. split; [done|].
    by apply list_elem_of_In.
Qed.

Lemma sliceTo_length (n : nat) (s : string) :
  String.length (JsString.sliceTo n s) = n `min` String.length s.
Proof.
  revert s. induction n as [|n IH]; intros [|c s]; simpl; try done.
  by rewrite IH.
Qed.

Lemma sliceTo_all (n : nat) (s : string) :
  String.length s ≤ n → JsString.sliceTo n s = s.
Proof.
  revert s. induction n as [|n IH]; intros [|c s]; simpl; try done; [lia|].
  intros H. rewrite IH; [done|lia].
Qed.

(** X24.  The preview on a card is bounded: it is never longer than 153 code
    units, a content of at most 150 code units is shown whole, and a
    longer one is cut after 150 code units and followed by three dots. *)
Theorem preview_bounded (content : string) :
  String.length (CanvasBoard.preview content) ≤ 153
  ∧ (String.length content ≤ 150 → CanvasBoard.preview content = content)
  ∧ (150 < String.length content →
     CanvasBoard.preview content = JsString.sliceTo 150 content +:+ "..."
     ∧ String.length (CanvasBoard.preview content) = 153).
Proof.
  unfold CanvasBoard.preview.
  destruct (150 <? String.length content)%nat eqn:E.
  - apply Nat.ltb_lt in E. rewrite length_append, sliceTo_length.
    change (String.length "...") with 3. split_and!; [lia|lia|].
    intros _. split; [done|lia].
  - apply Nat.ltb_ge in E. rewrite append_nil_r, sliceTo_length. split_and!; [lia| |lia].
    intros _. by apply sliceTo_all.
Qed.

(** X25.  A card is drawn only for a note that exists: every drawn card shows a
    note of the list; after a note is deleted no drawn card shows it, though
    its card stays on the canvas; and removing a card removes every card
    with that identity and no other. *)
Theorem canvas_draws_existing_notes
    (notes : list Note.t) (id : string) (st : CanvasBoard.state) :
  Forall (λ card, ∃ n, n ∈ notes ∧ CanvasNode.noteId card = Some (Note.id n))
         (CanvasBoard.drawn notes st)
  ∧ Forall (λ card, CanvasNode.noteId card ≠ Some id)
           (CanvasBoard.drawn (filter (λ n, Note.id n ≠ id) notes) st)
  ∧ CanvasBoard.drawn notes st `sublist_of` CanvasBoard.nodes st
  ∧ CanvasBoard.nodes (CanvasBoard.removeNode id st)
    = filter (λ card, CanvasNode.id card ≠ id) (CanvasBoard.nodes st)
  ∧ id ∉ (CanvasNode.id <$> CanvasBoard.nodes (CanvasBoard.removeNode id st)).
Proof.
  assert (Hdrawn : ∀ ns, Forall (λ card, ∃ n, n ∈ ns ∧ CanvasNode.noteId card = Some (Note.id n))
                           (CanvasBoard.drawn ns st)).
  { intros ns. apply Forall_forall. intros card [[n Hn] _]%list_elem_of_filter.
    unfold CanvasBoard.getNote in Hn. apply find_some in Hn as [Hin HP].
    apply bool_decide_eq_true in HP. exists n. split; [by apply list_elem_of_In|done]. }
  split_and!.
  - apply Hdrawn.
  - eapply Forall_impl; [apply Hdrawn|]. simpl.
    intros card (n & [Hn _]%list_elem_of_filter & ->). congruence.
  - apply sublist_filter.
  - done.
  - simpl. intros (card & -> & [Hc _]%list_elem_of_filter)%list_elem_of_fmap. done.
Qed.

Lemma connectionMap_entries_witness :
  connectionMap [alphaNote; betaNote; addedNote] !! "1" = Some {["4"]}
  ∧ "1" ∈ Note.id <$> [alphaNote; betaNote; addedNote]
  ∧ connectionMap [alphaNote; betaNote; addedNote] !! "2" = None.
Proof.
  assert (H1 : connectionMap [alphaNote; betaNote; addedNote] !! "1" = Some {["4"]}).
  { vm_compute. reflexivity. }
  split; [exact H1|]. split.
  - exact (proj1 (proj2 (connectionMap_entries [alphaNote; betaNote; addedNote] _ _ H1))).
  - vm_compute. reflexivity.
Defined.
